(* Shallow embedding of ElfFileImpl (runtime/oat/elf_file_impl.h): header and
   table views, segment loading and dynamic-symbol resolution.

   Only the class declaration is available; the member bodies are modelled
   from the design document of the loader (see every `Modelled from the spec:`
   doc comment).  Machine words are Z values; bytes are 8-bit Z values. *)

From Stdlib Require Import ZArith List Bool String Lia.
Import ListNotations.
Open Scope Z_scope.

(* ------------------------------------------------------------------------ *)
(** * Address-width policy (the [ElfTypes] template parameter) *)

Record ElfTypes := {
  ei_class_value : Z;          (* ELFCLASS32 = 1, ELFCLASS64 = 2 *)
  addr_bytes : nat;            (* sizeof(Elf_Addr) = sizeof(Elf_Off) *)
  ehdr_size : nat;             (* sizeof(Elf_Ehdr) *)
  phdr_size : nat;             (* sizeof(Elf_Phdr) *)
  e_phoff_at : nat;
  e_phentsize_at : nat;
  e_phnum_at : nat;
  p_type_at : nat;
  p_flags_at : nat;
  p_offset_at : nat;
  p_vaddr_at : nat;
  p_filesz_at : nat;
  p_memsz_at : nat;
  p_align_at : nat
}.

Definition ElfTypes32 : ElfTypes := {|
  ei_class_value := 1; addr_bytes := 4; ehdr_size := 52; phdr_size := 32;
  e_phoff_at := 28; e_phentsize_at := 42; e_phnum_at := 44;
  p_type_at := 0; p_offset_at := 4; p_vaddr_at := 8; p_filesz_at := 16;
  p_memsz_at := 20; p_flags_at := 24; p_align_at := 28 |}.

Definition ElfTypes64 : ElfTypes := {|
  ei_class_value := 2; addr_bytes := 8; ehdr_size := 64; phdr_size := 56;
  e_phoff_at := 32; e_phentsize_at := 54; e_phnum_at := 56;
  p_type_at := 0; p_flags_at := 4; p_offset_at := 8; p_vaddr_at := 16;
  p_filesz_at := 32; p_memsz_at := 40; p_align_at := 48 |}.

(* ------------------------------------------------------------------------ *)
(** * Bytes *)

(** Little-endian read of [n] bytes at [off]; [None] past the end. *)
Fixpoint read_le (bs : list Z) (off n : nat) : option Z :=
  match n with
  | O => Some 0
  | S n' =>
      match nth_error bs off, read_le bs (S off) n' with
      | Some b, Some rest => Some (b + 256 * rest)
      | _, _ => None
      end
  end.

(** Little-endian encoding of [v] on [n] bytes. *)
Fixpoint le_bytes (v : Z) (n : nat) : list Z :=
  match n with
  | O => []
  | S n' => (v mod 256) :: le_bytes (v / 256) n'
  end.

Definition bytes_of_string (s : string) : list Z :=
  map (fun c => Z.of_nat (Ascii.nat_of_ascii c)) (list_ascii_of_string s).

(* ------------------------------------------------------------------------ *)
(** * Symbol hash *)

(** Modelled from the spec: the body of the [elfhash] helper used by
    [FindDynamicSymbol] (missing from the sources): for every byte,
    [h = (h << 4) + byte]; if the top nibble [g] of [h] is set,
    [h ^= g >> 24; h &= ~g], on a 32-bit unsigned word. *)
Definition elf_hash_step (h c : Z) : Z :=
  let h1 := (Z.shiftl h 4 + c) mod 2 ^ 32 in
  let g := Z.land h1 0xf0000000 in
  if g =? 0 then h1
  else Z.land (Z.lxor h1 (Z.shiftr g 24)) (Z.lnot g).

Fixpoint elf_hash_from (h : Z) (name : list Z) : Z :=
  match name with
  | [] => h
  | c :: rest => elf_hash_from (elf_hash_step h c) rest
  end.

Definition elf_hash (name : list Z) : Z := elf_hash_from 0 name.

(* ------------------------------------------------------------------------ *)
(** * Dynamic symbol table and hash table views *)

Record Elf_Sym := {
  st_name : Z;
  st_value : Z;
  st_size : Z;
  st_info : Z;
  st_shndx : Z
}.

(** The views a loaded image exposes to the resolver: the words of the
    [.hash] section, the [.dynsym] entries and the [.dynstr] bytes, each
    obtained through a pointer already accepted by [ValidPointer]. *)
Record DynViews := {
  hash_words : list Z;
  dynsym : list Elf_Sym;
  dynstr : list Z
}.

Section Resolver.
Variable V : DynViews.

(** Modelled from the spec: [GetHashBucketNum] and [GetHashChainNum] read
    the two leading words of the hash table. *)
Definition GetHashBucketNum : option Z := nth_error (hash_words V) 0.
Definition GetHashChainNum : option Z := nth_error (hash_words V) 1.

(** Every read of the hash, symbol or string tables is recorded, so that
    bounds statements can speak about the indices actually used. *)
Inductive access :=
  | AccBucket (i : Z)
  | AccChain (i : Z)
  | AccSym (i : Z).

(** Modelled from the spec: [GetHashBucket(i, &ok)]: range-checked against
    [nbucket] before the read. *)
Definition GetHashBucket (nbucket i : Z) : option Z * list access :=
  if (0 <=? i) && (i <? nbucket)
  then (nth_error (hash_words V) (Z.to_nat (2 + i)), [AccBucket i])
  else (None, []).

(** Modelled from the spec: [GetHashChain(i, &ok)]: range-checked against
    [nchain] before the read. *)
Definition GetHashChain (nbucket nchain i : Z) : option Z * list access :=
  if (0 <=? i) && (i <? nchain)
  then (nth_error (hash_words V) (Z.to_nat (2 + nbucket + i)), [AccChain i])
  else (None, []).

(** Modelled from the spec: [GetSymbol(SHT_DYNSYM, i)], bounds-checked
    against [GetSymbolNum]. *)
Definition GetSymbol (i : Z) : option Elf_Sym :=
  if (0 <=? i) && (i <? Z.of_nat (List.length (dynsym V)))
  then nth_error (dynsym V) (Z.to_nat i)
  else None.

Fixpoint take_cstring (bs : list Z) : list Z :=
  match bs with
  | [] => []
  | b :: rest => if b =? 0 then [] else b :: take_cstring rest
  end.

(** Modelled from the spec: [GetString(SHT_DYNSYM, off)]: null for the
    reserved zero offset and for an offset outside the string table. *)
Definition GetString (off : Z) : option (list Z) :=
  if off =? 0 then None
  else if (0 <? off) && (off <? Z.of_nat (List.length (dynstr V)))
  then Some (take_cstring (skipn (Z.to_nat off) (dynstr V)))
  else None.

Definition sym_name_is (name : list Z) (s : Elf_Sym) : bool :=
  match GetString (st_name s) with
  | Some n => if list_eq_dec Z.eq_dec n name then true else false
  | None => false
  end.

(** How a chain walk ends.  The C++ returns [nullptr] for every end but
    [Found]. *)
Inductive walk_end :=
  | Found (i : Z) (s : Elf_Sym)
  | Terminator          (* chain value 0 (STN_UNDEF) reached *)
  | Corrupt             (* index out of range, or unreadable entry *)
  | Exhausted.          (* visited-count bound [nchain] reached *)

(** Modelled from the spec: the chain walk of [FindDynamicSymbol]: each
    candidate is range-checked against [nchain] before use, the walk stops
    on the terminator 0, and at most [nchain] candidates are visited. *)
Fixpoint chain_walk (name : list Z) (nbucket nchain : Z) (fuel : nat) (c : Z)
    : walk_end * list access :=
  match fuel with
  | O => (Exhausted, [])
  | S fuel' =>
      if c =? 0 then (Terminator, [])
      else if negb ((0 <? c) && (c <? nchain)) then (Corrupt, [])
      else match GetSymbol c with
           | None => (Corrupt, [AccSym c])
           | Some s =>
               if sym_name_is name s then (Found c s, [AccSym c])
               else match GetHashChain nbucket nchain c with
                    | (None, tr) => (Corrupt, AccSym c :: tr)
                    | (Some c', tr) =>
                        let (r, tr') := chain_walk name nbucket nchain fuel' c' in
                        (r, AccSym c :: tr ++ tr')
                    end
           end
  end.

(** Modelled from the spec: [FindDynamicSymbol]: no hash table words means
    no dynamic symbols; otherwise [bucket[elf_hash(name) mod nbucket]] starts
    the chain walk, bounded by [nchain] visits. *)
Definition find_dynamic_symbol_walk (name : list Z) : walk_end * list access :=
  match GetHashBucketNum, GetHashChainNum with
  | Some nbucket, Some nchain =>
      if nbucket <=? 0 then (Corrupt, [])
      else match GetHashBucket nbucket (elf_hash name mod nbucket) with
           | (None, tr) => (Corrupt, tr)
           | (Some c, tr) =>
               let (r, tr') := chain_walk name nbucket nchain (Z.to_nat nchain) c in
               (r, tr ++ tr')
           end
  | _, _ => (Corrupt, [])
  end.

Definition FindDynamicSymbol (name : list Z) : option Elf_Sym :=
  match fst (find_dynamic_symbol_walk name) with
  | Found _ s => Some s
  | _ => None
  end.

End Resolver.

(* ------------------------------------------------------------------------ *)
(** * Memory regions and the loader instance *)

(** The external Memory Region collaborator: [Begin], [Size], and
    [End = Begin + Size]; a file-backed region records the file range it
    maps, the rest of [mm_size] reading as zero. *)
Record MemMap := {
  mm_begin : Z;
  mm_size : Z;
  mm_prot : Z;
  mm_file_offset : option Z;
  mm_file_size : Z
}.

Definition MemMap_Begin (m : MemMap) : Z := mm_begin m.
Definition MemMap_Size (m : MemMap) : Z := mm_size m.
Definition MemMap_End (m : MemMap) : Z := mm_begin m + mm_size m.

Definition PROT_NONE : Z := 0.
Definition PROT_READ : Z := 1.
Definition PROT_WRITE : Z := 2.
Definition PROT_EXEC : Z := 4.

Record Elf_Phdr := {
  p_type : Z;
  p_flags : Z;
  p_offset : Z;
  p_vaddr : Z;
  p_filesz : Z;
  p_memsz : Z;
  p_align : Z
}.

Definition PT_LOAD : Z := 1.
Definition PF_X : Z := 1.
Definition PF_W : Z := 2.
Definition PF_R : Z := 4.

(** The fields of [ElfFileImpl] the operations below use.  [base_address_]
    is 0 (nullptr) before [Load]; [dyn_views_] stands for the cached,
    validated pointers to [.hash], [.dynsym] and [.dynstr] ([None] when the
    image has no hash table). *)
Record ElfFileImpl := {
  file_path_ : string;
  map_ : MemMap;
  map_bytes_ : list Z;
  e_phoff : Z;
  e_phentsize : Z;
  e_phnum : Z;
  segments_ : list MemMap;
  base_address_ : Z;
  dyn_views_ : option DynViews
}.

Definition GetFilePath (ef : ElfFileImpl) : string := file_path_ ef.
Definition GetBaseAddress (ef : ElfFileImpl) : Z := base_address_ ef.
Definition Begin (ef : ElfFileImpl) : Z := MemMap_Begin (map_ ef).
Definition End (ef : ElfFileImpl) : Z := MemMap_End (map_ ef).
Definition Size (ef : ElfFileImpl) : Z := MemMap_Size (map_ ef).

(** Modelled from the spec: [FindDynamicSymbolAddress]: the symbol's value
    relocated by [base_address_], or null. *)
Definition FindDynamicSymbolAddress (ef : ElfFileImpl) (name : list Z) : option Z :=
  match dyn_views_ ef with
  | None => None
  | Some v =>
      match FindDynamicSymbol v name with
      | Some s => Some (base_address_ ef + st_value s)
      | None => None
      end
  end.

(** The reference the resolver is compared with: a linear scan of the
    dynamic symbol table matching on name, first match wins. *)
Definition linear_scan_dynsym (ef : ElfFileImpl) (name : list Z) : option Z :=
  match dyn_views_ ef with
  | None => None
  | Some v =>
      match find (sym_name_is v name) (dynsym v) with
      | Some s => Some (base_address_ ef + st_value s)
      | None => None
      end
  end.

(* ------------------------------------------------------------------------ *)
(** * Well-formed hash tables *)

Section WellFormed.
Variable V : DynViews.

Definition hash_word (k : Z) : Z := nth (Z.to_nat k) (hash_words V) 0.

(** [chain_iter nbucket c k]: the candidate reached from [c] after [k]
    chain links. *)
Fixpoint chain_iter (nbucket c : Z) (k : nat) : Z :=
  match k with
  | O => c
  | S k' => chain_iter nbucket (hash_word (2 + nbucket + c)) k'
  end.

Definition name_of (i : Z) : option (list Z) :=
  match GetSymbol V i with
  | Some s => GetString V (st_name s)
  | None => None
  end.

Definition zrange (n : Z) : list Z := map Z.of_nat (seq 0 (Z.to_nat n)).

(** Symbol [i] lies on the chain of its name's bucket, before any
    terminator, after fewer than [nchain] links. *)
Definition on_chain_b (nbucket nchain : Z) (n : list Z) (i : Z) : bool :=
  let start := hash_word (2 + elf_hash n mod nbucket) in
  existsb (fun k => (chain_iter nbucket start k =? i) &&
                    forallb (fun j => negb (chain_iter nbucket start j =? 0)) (seq 0 k))
          (seq 0 (Z.to_nat nchain)).

Definition same_name (a b : option (list Z)) : bool :=
  match a, b with
  | Some x, Some y => if list_eq_dec Z.eq_dec x y then true else false
  | _, _ => false
  end.

(** A well-formed image: [nbucket > 0]; the table holds exactly [nbucket]
    bucket words and [nchain] chain words, all valid symbol indices;
    [nchain] is the number of dynamic symbols; names are unique and never
    carried by the null symbol 0; every named symbol is on its bucket's
    chain; every bucket's chain reaches the terminator within [nchain]
    links. *)
Definition wf_hash_table_b : bool :=
  match hash_words V with
  | nbucket :: nchain :: rest =>
      (0 <? nbucket)
      && (Z.of_nat (List.length rest) =? nbucket + nchain)
      && (Z.of_nat (List.length (dynsym V)) =? nchain)
      && forallb (fun w => (0 <=? w) && (w <? nchain)) rest
      && forallb (fun i => match name_of i with
                           | None => true
                           | Some n => negb (i =? 0) && on_chain_b nbucket nchain n i
                           end) (zrange nchain)
      && forallb (fun i => forallb (fun j => negb (same_name (name_of i) (name_of j))
                                           || (i =? j)) (zrange nchain)) (zrange nchain)
      && forallb (fun b => existsb (fun k => chain_iter nbucket (hash_word (2 + b)) k =? 0)
                                   (seq 0 (Z.to_nat nchain))) (zrange nbucket)
  | _ => false
  end.

End WellFormed.

(** Counting the table reads of a walk. *)
Definition is_chain_read (a : access) : bool :=
  match a with AccChain _ => true | _ => false end.
Definition is_sym_read (a : access) : bool :=
  match a with AccSym _ => true | _ => false end.
Definition chain_links (tr : list access) : nat := List.length (filter is_chain_read tr).
Definition visited (tr : list access) : nat := List.length (filter is_sym_read tr).

Definition nchain_bound (V : DynViews) : nat :=
  match GetHashChainNum V with Some n => Z.to_nat n | None => O end.

Definition access_in_bounds (nbucket nchain : Z) (a : access) : Prop :=
  match a with
  | AccBucket i => 0 <= i < nbucket
  | AccChain i => 0 <= i < nchain
  | AccSym i => 0 < i < nchain
  end.

Definition is_found (r : walk_end) : bool :=
  match r with Found _ _ => true | _ => false end.

(* ------------------------------------------------------------------------ *)
(** * Files, the process address space and errors *)

(** The Raw File Handle collaborator: a path and its bytes. *)
Record File := {
  file_path : string;
  file_bytes : list Z
}.

Definition GetLength (f : File) : Z := Z.of_nat (List.length (file_bytes f)).

(** The live mappings of the process, each under a unique id. *)
Record Proc := {
  next_id : nat;
  live : list (nat * MemMap)
}.

Inductive ElfError :=
  | FormatError (msg : string)
  | AllocationError (msg : string) (segment : option Elf_Phdr).

Definition kPageSize : Z := 4096.
Definition mmap_min_addr : Z := 0x10000.
Definition user_address_limit : Z := 2 ^ 47.
Definition low_4gb_limit : Z := 2 ^ 32.

Definition RoundDown (x a : Z) : Z := x - x mod a.
Definition RoundUp (x a : Z) : Z := RoundDown (x + a - 1) a.

Definition add_map (p : Proc) (m : MemMap) : nat * Proc :=
  (next_id p, {| next_id := S (next_id p); live := (next_id p, m) :: live p |}).

Definition unmap_ids (ids : list nat) (p : Proc) : Proc :=
  {| next_id := next_id p;
     live := filter (fun e => negb (existsb (Nat.eqb (fst e)) ids)) (live p) |}.

Definition anon_map (b size : Z) : MemMap :=
  {| mm_begin := b; mm_size := size; mm_prot := PROT_NONE;
     mm_file_offset := None; mm_file_size := 0 |}.

Definition overlaps (b size : Z) (m : MemMap) : bool :=
  (b <? MemMap_End m) && (mm_begin m <? b + size).

(** Modelled from the spec: the platform's placement of a fresh region
    (the address-space collaborator): the lowest candidate address, either
    [mmap_min_addr] or the page-rounded end of a live mapping, where [size]
    bytes fit below the limit (2^32 under the low-4GB constraint) without
    overlapping a live mapping; [None] when no such place exists. *)
Definition place_fits (p : Proc) (size limit c : Z) : bool :=
  (mmap_min_addr <=? c) && (c + size <=? limit)
  && forallb (fun e => negb (overlaps c size (snd e))) (live p).

Definition place_region (p : Proc) (size : Z) (low_4gb : bool) : option Z :=
  let limit := if low_4gb then low_4gb_limit else user_address_limit in
  let cands := mmap_min_addr
               :: map (fun e => RoundUp (MemMap_End (snd e)) kPageSize) (live p) in
  if size <=? 0 then None
  else fold_left (fun acc c =>
                    if place_fits p size limit c
                    then match acc with None => Some c | Some a => Some (Z.min a c) end
                    else acc) cands None.

(* ------------------------------------------------------------------------ *)
(** * Header and program-header views *)

Definition ELFMAG : list Z := [0x7f; 0x45; 0x4c; 0x46].
Definition EI_CLASS : nat := 4.
Definition EI_DATA : nat := 5.
Definition ELFDATA2LSB : Z := 1.

Section Layout.
Variable ET : ElfTypes.

Definition magic_ok (bs : list Z) : bool :=
  if list_eq_dec Z.eq_dec (firstn 4 bs) ELFMAG then true else false.
Definition class_ok (bs : list Z) : bool :=
  match nth_error bs EI_CLASS with Some c => c =? ei_class_value ET | None => false end.
Definition data_ok (bs : list Z) : bool :=
  match nth_error bs EI_DATA with Some d => d =? ELFDATA2LSB | None => false end.

(** The leading identification bytes match the compiled layout. *)
Definition ident_matches (bs : list Z) : bool := magic_ok bs && class_ok bs && data_ok bs.

(** Modelled from the spec: [Open]: rejects a file too short for the
    header and any magic, class or byte-order mismatch with a FormatError,
    checks that the program-header table lies within the file, and only then
    maps the header prefix (header and program-header table).  The
    section checks of a writable open ([CheckSectionsExist]) are not part
    of this model: it covers the read-only path up to the mapping. *)
Definition Open (mmap_refuses : MemMap -> bool) (file : File) (low_4gb : bool) (p : Proc)
    : (ElfError + ElfFileImpl) * Proc :=
  let bs := file_bytes file in
  if GetLength file <? Z.of_nat (ehdr_size ET) then
    (inl (FormatError (String.append "File too short to contain an ELF header: "
                                     (file_path file))), p)
  else if negb (magic_ok bs) then
    (inl (FormatError (String.append "Failed to find ELF magic value in " (file_path file))), p)
  else if negb (class_ok bs) then
    (inl (FormatError (String.append "Failed to find expected EI_CLASS value in "
                                     (file_path file))), p)
  else if negb (data_ok bs) then
    (inl (FormatError (String.append "Failed to find expected EI_DATA value in "
                                     (file_path file))), p)
  else
    match read_le bs (e_phoff_at ET) (addr_bytes ET),
          read_le bs (e_phentsize_at ET) 2,
          read_le bs (e_phnum_at ET) 2 with
    | Some phoff, Some phentsize, Some phnum =>
        let need := phoff + phentsize * phnum in
        if GetLength file <? need then
          (inl (FormatError (String.append "File too short to contain the program headers: "
                                           (file_path file))), p)
        else
          let size := Z.max (Z.of_nat (ehdr_size ET)) need in
          match place_region p size low_4gb with
          | None => (inl (AllocationError "Failed to map ELF header" None), p)
          | Some a =>
              let m := {| mm_begin := a; mm_size := size; mm_prot := PROT_READ;
                          mm_file_offset := Some 0; mm_file_size := size |} in
              if mmap_refuses m then (inl (AllocationError "Failed to map ELF header" None), p)
              else
                let (_, p') := add_map p m in
                (inr {| file_path_ := file_path file; map_ := m;
                        map_bytes_ := firstn (Z.to_nat size) bs;
                        e_phoff := phoff; e_phentsize := phentsize; e_phnum := phnum;
                        segments_ := []; base_address_ := 0; dyn_views_ := None |}, p')
          end
    | _, _, _ => (inl (FormatError "Truncated ELF header"), p)
    end.

Definition parse_phdr (bs : list Z) (off : nat) : option Elf_Phdr :=
  match read_le bs (off + p_type_at ET) 4, read_le bs (off + p_flags_at ET) 4,
        read_le bs (off + p_offset_at ET) (addr_bytes ET),
        read_le bs (off + p_vaddr_at ET) (addr_bytes ET),
        read_le bs (off + p_filesz_at ET) (addr_bytes ET),
        read_le bs (off + p_memsz_at ET) (addr_bytes ET),
        read_le bs (off + p_align_at ET) (addr_bytes ET) with
  | Some t, Some f, Some o, Some v, Some fs, Some ms, Some al =>
      Some {| p_type := t; p_flags := f; p_offset := o; p_vaddr := v;
              p_filesz := fs; p_memsz := ms; p_align := al |}
  | _, _, _, _, _, _, _ => None
  end.

(** Modelled from the spec: [ValidPointer] for an access of [len] bytes at
    offset [off] of the header mapping. *)
Definition ValidPointer (ef : ElfFileImpl) (off len : Z) : bool :=
  (0 <=? off) && (off + len <=? Size ef).

(** Modelled from the spec: [GetProgramHeader(i)]: entry [i] of the table,
    null when [i] is not below [e_phnum] or the entry is outside the map. *)
Definition GetProgramHeader (ef : ElfFileImpl) (i : Z) : option Elf_Phdr :=
  let off := e_phoff ef + i * e_phentsize ef in
  if (0 <=? i) && (i <? e_phnum ef) && ValidPointer ef off (Z.of_nat (phdr_size ET))
  then parse_phdr (map_bytes_ ef) (Z.to_nat off)
  else None.

Fixpoint all_some {A : Type} (l : list (option A)) : option (list A) :=
  match l with
  | [] => Some []
  | Some x :: rest => match all_some rest with Some r => Some (x :: r) | None => None end
  | None :: _ => None
  end.

Definition program_headers (ef : ElfFileImpl) : option (list Elf_Phdr) :=
  all_some (map (GetProgramHeader ef) (zrange (e_phnum ef))).

End Layout.

(* ------------------------------------------------------------------------ *)
(** * Segment loading *)

Definition is_load (ph : Elf_Phdr) : bool := p_type ph =? PT_LOAD.

(** Alignment 0 means no constraint (byte granularity). *)
Definition seg_align (ph : Elf_Phdr) : Z := if p_align ph <=? 0 then 1 else p_align ph.

(** Modelled from the spec: the scan of [GetLoadedAddressRange]: minimum
    [p_vaddr], maximum [p_vaddr + p_memsz] and largest alignment over the
    loadable entries, in header order. *)
Definition range_step (acc : option (Z * Z * Z)) (ph : Elf_Phdr) : option (Z * Z * Z) :=
  if is_load ph then
    match acc with
    | None => Some (p_vaddr ph, p_vaddr ph + p_memsz ph, seg_align ph)
    | Some (lo, hi, a) =>
        Some (Z.min lo (p_vaddr ph), Z.max hi (p_vaddr ph + p_memsz ph), Z.max a (seg_align ph))
    end
  else acc.

(** Modelled from the spec: the span, both ends rounded outward to the
    largest alignment; a FormatError without loadable entries. *)
Definition loaded_address_range (phs : list Elf_Phdr) : ElfError + (Z * Z) :=
  match fold_left range_step phs None with
  | None => inl (FormatError "No loadable segments")
  | Some (lo, hi, a) => inr (RoundDown lo a, RoundUp hi a - RoundDown lo a)
  end.

Definition GetLoadedAddressRange (ET : ElfTypes) (ef : ElfFileImpl) : ElfError + (Z * Z) :=
  match program_headers ET ef with
  | None => inl (FormatError "Program header outside the ELF header mapping")
  | Some phs => loaded_address_range phs
  end.

Definition GetLoadedSize (ET : ElfTypes) (ef : ElfFileImpl) : ElfError + Z :=
  match GetLoadedAddressRange ET ef with
  | inl e => inl e
  | inr (_, size) => inr size
  end.

Definition has_flag (flags f : Z) : bool := negb (Z.land flags f =? 0).

(** Modelled from the spec: protection per the segment's flags, execute
    only when the image is loaded for execution. *)
Definition segment_prot (executable : bool) (ph : Elf_Phdr) : Z :=
  Z.lor (if executable && has_flag (p_flags ph) PF_X then PROT_EXEC else 0)
        (Z.lor (if has_flag (p_flags ph) PF_W then PROT_WRITE else 0)
               (if has_flag (p_flags ph) PF_R then PROT_READ else 0)).

(** The mapping of one loadable segment: [p_memsz] bytes at
    [base + p_vaddr], the first [p_filesz] from file offset [p_offset]. *)
Definition segment_map (base : Z) (executable : bool) (ph : Elf_Phdr) : MemMap :=
  {| mm_begin := base + p_vaddr ph; mm_size := p_memsz ph;
     mm_prot := segment_prot executable ph;
     mm_file_offset := Some (p_offset ph); mm_file_size := p_filesz ph |}.

Section Loading.
(** The platform's refusal of a mapping request (the mmap system call
    failing). *)
Variable mmap_refuses : MemMap -> bool.

(** Modelled from the spec: step 2 of [Load]: take the span from the
    caller's reservation (advancing it by exactly the bytes used), or place
    a fresh region, honouring the low-4GB constraint. *)
Definition reserve_span (p : Proc) (reservation : option (nat * MemMap)) (size : Z)
    (low_4gb : bool) : ElfError + (nat * MemMap * option (nat * MemMap) * Proc) :=
  match reservation with
  | Some (rid, r) =>
      if mm_size r <? size then
        inl (AllocationError "Insufficient pre-allocated space to load ELF file" None)
      else
        let take := anon_map (mm_begin r) size in
        let rem := anon_map (mm_begin r + size) (mm_size r - size) in
        let p0 := unmap_ids [rid] p in
        let p1 := if 0 <? mm_size rem
                  then {| next_id := next_id p0; live := (rid, rem) :: live p0 |}
                  else p0 in
        let rem' := if 0 <? mm_size rem then Some (rid, rem) else None in
        let (tid, p2) := add_map p1 take in
        inr (tid, take, rem', p2)
  | None =>
      match place_region p size low_4gb with
      | None => inl (AllocationError "Failed to allocate space to load ELF file" None)
      | Some a =>
          let m := anon_map a size in
          if mmap_refuses m then
            inl (AllocationError "Failed to allocate space to load ELF file" None)
          else
            let (id, p') := add_map p m in
            inr (id, m, None, p')
      end
  end.

(** Modelled from the spec: steps 4 and 5 of [Load]: map each loadable
    entry in header order; the mappings built so far are handed back with
    the error on the first failure. *)
Fixpoint map_segments (phs : list Elf_Phdr) (base : Z) (executable : bool) (p : Proc)
    (built : list (nat * MemMap))
    : (ElfError * list (nat * MemMap) + list (nat * MemMap)) * Proc :=
  match phs with
  | [] => (inr (rev built), p)
  | ph :: rest =>
      if negb (is_load ph) then map_segments rest base executable p built
      else if negb (p_offset ph mod seg_align ph =? p_vaddr ph mod seg_align ph) then
        (inl (FormatError "Program header offset and address disagree modulo alignment",
              built), p)
      else
        let m := segment_map base executable ph in
        if mmap_refuses m then
          (inl (AllocationError "Failed to map ELF file segment" (Some ph), built), p)
        else
          let (id, p') := add_map p m in
          map_segments rest base executable p' ((id, m) :: built)
  end.

(** Modelled from the spec: [Load].  On any failure every mapping made by
    the call (the reserved span and the segments) is unmapped; on success
    the span becomes [base_address_] and the span and per-segment mappings
    are kept in [segments_].  Steps 3 and 4 are taken literally: the base
    is the start of the span and each segment is mapped at base plus its
    [p_vaddr].  Step 6 (locating the dynamic, hash and symbol views inside
    the loaded image) is not modelled: [dyn_views_] is carried over. *)
Definition Load (ET : ElfTypes) (ef : ElfFileImpl) (executable low_4gb : bool)
    (reservation : option (nat * MemMap)) (p : Proc)
    : (ElfError + ElfFileImpl) * option (nat * MemMap) * Proc :=
  match program_headers ET ef with
  | None => (inl (FormatError "Program header outside the ELF header mapping"), reservation, p)
  | Some phs =>
      match loaded_address_range phs with
      | inl e => (inl e, reservation, p)
      | inr (_, size) =>
          match reserve_span p reservation size low_4gb with
          | inl e => (inl e, reservation, p)
          | inr (rid, rmap, reservation', p1) =>
              let base := mm_begin rmap in
              match map_segments phs base executable p1 [] with
              | (inl (e, built), p2) =>
                  (inl e, reservation', unmap_ids (rid :: map fst built) p2)
              | (inr built, p2) =>
                  (inr {| file_path_ := file_path_ ef; map_ := map_ ef;
                          map_bytes_ := map_bytes_ ef; e_phoff := e_phoff ef;
                          e_phentsize := e_phentsize ef; e_phnum := e_phnum ef;
                          segments_ := rmap :: map snd built; base_address_ := base;
                          dyn_views_ := dyn_views_ ef |}, reservation', p2)
              end
          end
      end
  end.

(** The base [Load] maps the segments against: the start of the span
    taken in step 2, when steps 1 and 2 succeed. *)
Definition Load_base (ET : ElfTypes) (ef : ElfFileImpl) (low_4gb : bool)
    (reservation : option (nat * MemMap)) (p : Proc) : option Z :=
  match program_headers ET ef with
  | None => None
  | Some phs =>
      match loaded_address_range phs with
      | inl _ => None
      | inr (_, size) =>
          match reserve_span p reservation size low_4gb with
          | inl _ => None
          | inr (_, rmap, _, _) => Some (mm_begin rmap)
          end
      end
  end.

End Loading.


(* ------------------------------------------------------------------------ *)
(** * Valid segment tables *)

Fixpoint pairwise {A : Type} (R : A -> A -> bool) (l : list A) : bool :=
  match l with
  | [] => true
  | x :: rest => forallb (R x) rest && pairwise R rest
  end.

Definition vm_disjoint (x y : Elf_Phdr) : bool :=
  (p_vaddr x + p_memsz x <=? p_vaddr y) || (p_vaddr y + p_memsz y <=? p_vaddr x).

(** A valid image, as far as segment loading goes: at least one loadable
    entry; each has [0 <= p_filesz <= p_memsz]; loadable entries do not
    overlap in the address space. *)
Definition valid_segments (phs : list Elf_Phdr) : bool :=
  let loads := filter is_load phs in
  negb (match loads with [] => true | _ => false end)
  && forallb (fun ph => (0 <=? p_filesz ph) && (p_filesz ph <=? p_memsz ph)) loads
  && pairwise vm_disjoint loads.

Definition sum_filesz (l : list Elf_Phdr) : Z := fold_right (fun ph acc => p_filesz ph + acc) 0 l.
Definition sum_memsz (l : list Elf_Phdr) : Z := fold_right (fun ph acc => p_memsz ph + acc) 0 l.

(* ------------------------------------------------------------------------ *)
(** * Sample images *)

(** A minimal 64-bit image: one loadable segment at file offset 0, size
    0x1000, vaddr 0, alignment 0x1000, flags read+execute; the file is one
    page long. *)
Definition sample_ehdr64 : list Z :=
  ELFMAG ++ [2; 1; 1; 0] ++ repeat 0 8
  ++ le_bytes 3 2 ++ le_bytes 0x3e 2 ++ le_bytes 1 4 ++ le_bytes 0 8
  ++ le_bytes 64 8 ++ le_bytes 0 8 ++ le_bytes 0 4
  ++ le_bytes 64 2 ++ le_bytes 56 2 ++ le_bytes 1 2
  ++ le_bytes 64 2 ++ le_bytes 0 2 ++ le_bytes 0 2.

Definition sample_phdr64 : list Z :=
  le_bytes PT_LOAD 4 ++ le_bytes (Z.lor PF_R PF_X) 4 ++ le_bytes 0 8 ++ le_bytes 0 8
  ++ le_bytes 0 8 ++ le_bytes 0x1000 8 ++ le_bytes 0x1000 8 ++ le_bytes 0x1000 8.

Definition sample_file : File :=
  {| file_path := "sample.oat";
     file_bytes := sample_ehdr64 ++ sample_phdr64 ++ repeat 0 (4096 - 120) |}.

(** The same image with a corrupted leading magic byte. *)
Definition bad_magic_file : File :=
  {| file_path := "bad.oat"; file_bytes := 0x7e :: tl (file_bytes sample_file) |}.

Definition empty_proc : Proc := {| next_id := 0; live := [] |}.

Definition no_refusal (m : MemMap) : bool := false.

(** A dynamic symbol table with the null symbol and ["oatdata"], one
    bucket and one chain slot per symbol. *)
Definition sample_views : DynViews :=
  {| hash_words := [1; 2; 1; 0; 0];
     dynsym := [ {| st_name := 0; st_value := 0; st_size := 0; st_info := 0; st_shndx := 0 |};
                 {| st_name := 1; st_value := 0x1000; st_size := 8; st_info := 17;
                    st_shndx := 4 |} ];
     dynstr := 0 :: bytes_of_string "oatdata" ++ [0] |}.

(** A corrupted table whose chain cycles 1 -> 2 -> 1. *)
Definition cyclic_views : DynViews :=
  {| hash_words := [1; 3; 1; 0; 2; 1];
     dynsym := [ {| st_name := 0; st_value := 0; st_size := 0; st_info := 0; st_shndx := 0 |};
                 {| st_name := 1; st_value := 0x10; st_size := 0; st_info := 0; st_shndx := 1 |};
                 {| st_name := 3; st_value := 0x20; st_size := 0; st_info := 0; st_shndx := 1 |} ];
     dynstr := [0; 0x61; 0; 0x62; 0] |}.

Definition with_views (ef : ElfFileImpl) (v : DynViews) : ElfFileImpl :=
  {| file_path_ := file_path_ ef; map_ := map_ ef; map_bytes_ := map_bytes_ ef;
     e_phoff := e_phoff ef; e_phentsize := e_phentsize ef; e_phnum := e_phnum ef;
     segments_ := segments_ ef; base_address_ := base_address_ ef; dyn_views_ := Some v |}.

Definition sample_loader (v : DynViews) : ElfFileImpl :=
  with_views {| file_path_ := "sample.oat"; map_ := anon_map 0x10000 120; map_bytes_ := [];
                e_phoff := 64; e_phentsize := 56; e_phnum := 1; segments_ := [];
                base_address_ := 0x70000000; dyn_views_ := None |} v.

(** [Open] of the sample file in an empty address space, then [Load] of
    the instance it returns. *)
Definition sample_open : (ElfError + ElfFileImpl) * Proc :=
  Open ElfTypes64 no_refusal sample_file false empty_proc.

Definition sample_load (load_refuses : MemMap -> bool) (executable low_4gb : bool)
    (reservation : option (nat * MemMap)) (pre : Proc -> Proc)
    : option ((ElfError + ElfFileImpl) * option (nat * MemMap) * Proc) :=
  match sample_open with
  | (inr ef, p) => Some (Load load_refuses ElfTypes64 ef executable low_4gb reservation (pre p))
  | (inl _, _) => None
  end.

(** A platform that refuses every file-backed mapping. *)
Definition refuse_file_maps (m : MemMap) : bool :=
  match mm_file_offset m with Some _ => true | None => false end.

(** A caller-provided reservation of one page at 4GB. *)
Definition high_reservation : nat * MemMap := (7%nat, anon_map (2 ^ 32) 0x1000).

Definition with_high_reservation (p : Proc) : Proc :=
  {| next_id := next_id p; live := high_reservation :: live p |}.

(** The instance [Open] returns for the sample file, the address space after
    it, and the sample's program-header table. *)
Definition sample_opened : ElfFileImpl :=
  match fst sample_open with inr ef => ef | inl _ => sample_loader sample_views end.

Definition sample_proc_after_open : Proc := snd sample_open.

Definition sample_phs : list Elf_Phdr :=
  Eval vm_compute in
    match program_headers ElfTypes64 sample_opened with Some l => l | None => [] end.

(** A two-segment 64-bit image: a read+execute page at file offset and
    vaddr 0, then a read+write page at file offset and vaddr 0x1000; the
    file is two pages long. *)
Definition two_seg_ehdr64 : list Z :=
  ELFMAG ++ [2; 1; 1; 0] ++ repeat 0 8
  ++ le_bytes 3 2 ++ le_bytes 0x3e 2 ++ le_bytes 1 4 ++ le_bytes 0 8
  ++ le_bytes 64 8 ++ le_bytes 0 8 ++ le_bytes 0 4
  ++ le_bytes 64 2 ++ le_bytes 56 2 ++ le_bytes 2 2
  ++ le_bytes 64 2 ++ le_bytes 0 2 ++ le_bytes 0 2.

Definition two_seg_phdr64_rw : list Z :=
  le_bytes PT_LOAD 4 ++ le_bytes (Z.lor PF_R PF_W) 4 ++ le_bytes 0x1000 8 ++ le_bytes 0x1000 8
  ++ le_bytes 0x1000 8 ++ le_bytes 0x1000 8 ++ le_bytes 0x1000 8 ++ le_bytes 0x1000 8.

Definition two_seg_file : File :=
  {| file_path := "two.oat";
     file_bytes := two_seg_ehdr64 ++ sample_phdr64 ++ two_seg_phdr64_rw
                   ++ repeat 0 (4096 + 4096 - 176) |}.

(** A platform that refuses the file-backed mapping of offset 0x1000 only. *)
Definition refuse_second_page (m : MemMap) : bool :=
  match mm_file_offset m with Some o => o =? 0x1000 | None => false end.

Definition two_seg_open : (ElfError + ElfFileImpl) * Proc :=
  Open ElfTypes64 no_refusal two_seg_file false empty_proc.

Definition two_seg_opened : ElfFileImpl :=
  match fst two_seg_open with inr ef => ef | inl _ => sample_loader sample_views end.

Definition two_seg_proc : Proc := snd two_seg_open.

Definition two_seg_phs : list Elf_Phdr :=
  Eval vm_compute in
    match program_headers ElfTypes64 two_seg_opened with Some l => l | None => [] end.

Definition null_phdr : Elf_Phdr :=
  {| p_type := 0; p_flags := 0; p_offset := 0; p_vaddr := 0; p_filesz := 0; p_memsz := 0;
     p_align := 0 |}.

Definition two_seg_ph1 : Elf_Phdr := Eval vm_compute in nth 0 two_seg_phs null_phdr.
Definition two_seg_ph2 : Elf_Phdr := Eval vm_compute in nth 1 two_seg_phs null_phdr.

Definition two_seg_base : Z :=
  Eval vm_compute in
    match Load_base refuse_second_page ElfTypes64 two_seg_opened false None two_seg_proc with
    | Some b => b | None => 0 end.

(* ------------------------------------------------------------------------ *)
(** * Segment alignment from the file *)

Section Alignment.
Variable ET : ElfTypes.

(** The loop of [GetElfSegmentAlignmentFromFile] over the program-header
    indices: the [p_align] of the first [PT_LOAD] entry, 0 when the loop
    ends.  An unreadable entry (a null [GetProgramHeader]) is dereferenced
    by the C++; it ends the loop with 0 here. *)
Fixpoint first_load_align (ef : ElfFileImpl) (idx : list Z) : Z :=
  match idx with
  | [] => 0
  | i :: rest =>
      match GetProgramHeader ET ef i with
      | Some ph => if is_load ph then p_align ph else first_load_align ef rest
      | None => 0
      end
  end.

(** Modelled from the declaration's comment: [GetElfSegmentAlignmentFromFile]:
    the alignment of the first loadable program segment, 0 without one. *)
Definition GetElfSegmentAlignmentFromFile (ef : ElfFileImpl) : Z :=
  first_load_align ef (zrange (e_phnum ef)).

End Alignment.

(** A sample whose one loadable segment has file offset 0x10 and virtual
    address 0 under alignment 0x1000. *)
Definition misaligned_phdr64 : list Z :=
  le_bytes PT_LOAD 4 ++ le_bytes (Z.lor PF_R PF_X) 4 ++ le_bytes 0x10 8 ++ le_bytes 0 8
  ++ le_bytes 0 8 ++ le_bytes 0x1000 8 ++ le_bytes 0x1000 8 ++ le_bytes 0x1000 8.

Definition misaligned_file : File :=
  {| file_path := "misaligned.oat";
     file_bytes := sample_ehdr64 ++ misaligned_phdr64 ++ repeat 0 (4096 - 120) |}.

Definition misaligned_opened : ElfFileImpl :=
  match fst (Open ElfTypes64 no_refusal misaligned_file false empty_proc) with
  | inr ef => ef
  | inl _ => sample_opened
  end.

Definition misaligned_phs : list Elf_Phdr :=
  Eval vm_compute in
    match program_headers ElfTypes64 misaligned_opened with Some l => l | None => [] end.

(** The sample loader with symbol views, opened from the sample file. *)
Definition sample_opened_views : ElfFileImpl := with_views sample_opened sample_views.

(* ======================================================================== *)
(** * Proofs: hash and resolver *)

Lemma elf_hash_from_app (h : Z) (a b : list Z) :
  elf_hash_from h (a ++ b) = elf_hash_from (elf_hash_from h a) b.
Proof. revert h; induction a as [|c a IH]; intro h; simpl; auto. Qed.

Lemma in_zrange (n i : Z) : In i (zrange n) <-> 0 <= i < n.
Proof.
  unfold zrange; rewrite in_map_iff; split.
  - intros [k [<- Hk]]; apply in_seq in Hk; lia.
  - intro H; exists (Z.to_nat i); rewrite in_seq; split; lia.
Qed.

Section ResolverProofs.
Variable V : DynViews.

Lemma sym_name_is_true (n : list Z) (s : Elf_Sym) :
  sym_name_is V n s = true <-> GetString V (st_name s) = Some n.
Proof.
  unfold sym_name_is; destruct (GetString V (st_name s)) as [m|].
  - destruct (list_eq_dec Z.eq_dec m n); split; congruence.
  - split; congruence.
Qed.

Lemma GetSymbol_range (i : Z) (s : Elf_Sym) :
  GetSymbol V i = Some s ->
  0 <= i < Z.of_nat (List.length (dynsym V)) /\ nth_error (dynsym V) (Z.to_nat i) = Some s.
Proof.
  unfold GetSymbol; destruct ((0 <=? i) && (i <? Z.of_nat (List.length (dynsym V)))) eqn:E;
    [|discriminate].
  apply andb_true_iff in E; destruct E as [E1 E2]; apply Z.leb_le in E1; apply Z.ltb_lt in E2.
  intro H; split; [lia | exact H].
Qed.

Lemma GetSymbol_in_range (i : Z) :
  0 <= i < Z.of_nat (List.length (dynsym V)) ->
  exists s, GetSymbol V i = Some s /\ In s (dynsym V).
Proof.
  intro Hi; unfold GetSymbol.
  replace ((0 <=? i) && (i <? Z.of_nat (List.length (dynsym V)))) with true
    by (symmetry; apply andb_true_iff; split; [apply Z.leb_le | apply Z.ltb_lt]; lia).
  destruct (nth_error (dynsym V) (Z.to_nat i)) as [s|] eqn:E.
  - exists s; split; [reflexivity | eapply nth_error_In; eauto].
  - apply nth_error_None in E; lia.
Qed.

(** Soundness of the walk: a found entry is the one at that index and it
    carries the name looked up. *)
Lemma chain_walk_found_sound (name : list Z) (nb nc : Z) (F : nat) (c i : Z) (s : Elf_Sym) :
  fst (chain_walk V name nb nc F c) = Found i s ->
  GetSymbol V i = Some s /\ sym_name_is V name s = true.
Proof.
  revert c; induction F as [|F IH]; intro c; simpl; [discriminate|].
  destruct (c =? 0); [discriminate|].
  destruct (negb ((0 <? c) && (c <? nc))); [discriminate|].
  destruct (GetSymbol V c) as [s'|] eqn:Es; [|discriminate].
  destruct (sym_name_is V name s') eqn:En.
  - simpl; intro H; inversion H; subst; auto.
  - destruct (GetHashChain V nb nc c) as [[c'|] tr]; [|discriminate].
    destruct (chain_walk V name nb nc F c') as [r tr'] eqn:Ew.
    simpl; intro H; apply (IH c'); rewrite Ew; exact H.
Qed.

(** Every read a walk makes is in range, and a walk of fuel [F] follows at
    most [F] chain links and visits at most [F] symbols. *)
Lemma chain_walk_trace (name : list Z) (nb nc : Z) (F : nat) (c : Z) :
  Forall (access_in_bounds nb nc) (snd (chain_walk V name nb nc F c)) /\
  (chain_links (snd (chain_walk V name nb nc F c)) <= F)%nat /\
  (visited (snd (chain_walk V name nb nc F c)) <= F)%nat.
Proof.
  revert c; induction F as [|F IH]; intro c; simpl.
  - repeat split; auto.
  - destruct (c =? 0) eqn:E0; [simpl; unfold chain_links, visited; simpl; repeat split; auto; lia|].
    destruct (negb ((0 <? c) && (c <? nc))) eqn:Er;
      [simpl; unfold chain_links, visited; simpl; repeat split; auto; lia|].
    assert (Hc : 0 < c < nc).
    { apply negb_false_iff, andb_true_iff in Er; destruct Er as [E1 E2].
      apply Z.ltb_lt in E1; apply Z.ltb_lt in E2; lia. }
    destruct (GetSymbol V c) as [s|].
    + destruct (sym_name_is V name s).
      * simpl; unfold chain_links, visited; simpl; repeat split; try lia.
        constructor; [simpl; lia | constructor].
      * unfold GetHashChain.
        replace ((0 <=? c) && (c <? nc)) with true
          by (symmetry; apply andb_true_iff; split; [apply Z.leb_le | apply Z.ltb_lt]; lia).
        destruct (nth_error (hash_words V) (Z.to_nat (2 + nb + c))) as [c'|].
        -- destruct (chain_walk V name nb nc F c') as [r tr'] eqn:Ew.
           destruct (IH c') as [IH1 [IH2 IH3]]; rewrite Ew in IH1, IH2, IH3; simpl in *.
           unfold chain_links, visited in *; simpl; repeat split; try lia.
           constructor; [simpl; lia|]; constructor; [simpl; lia|]; exact IH1.
        -- simpl; unfold chain_links, visited; simpl; repeat split; try lia.
           constructor; [simpl; lia|]; constructor; [simpl; lia | constructor].
    + simpl; unfold chain_links, visited; simpl; repeat split; try lia.
      constructor; [simpl; lia | constructor].
Qed.

(** An out-of-range candidate is never used: the walk reads nothing and
    does not succeed. *)
Lemma chain_walk_out_of_range (name : list Z) (nb nc : Z) (F : nat) (c : Z) :
  c <> 0 -> ~ (0 < c < nc) ->
  snd (chain_walk V name nb nc F c) = [] /\ is_found (fst (chain_walk V name nb nc F c)) = false.
Proof.
  intros H0 Hr; destruct F as [|F]; simpl; [auto|].
  replace (c =? 0) with false by (symmetry; apply Z.eqb_neq; exact H0).
  replace (negb ((0 <? c) && (c <? nc))) with true; [simpl; auto|].
  symmetry; apply negb_true_iff; destruct ((0 <? c) && (c <? nc)) eqn:E; [|reflexivity].
  apply andb_true_iff in E; destruct E as [E1 E2]; apply Z.ltb_lt in E1; apply Z.ltb_lt in E2.
  exfalso; apply Hr; lia.
Qed.

End ResolverProofs.

Section WellFormedProofs.
Variable V : DynViews.
Variables nb nc : Z.
Variable rest : list Z.
Hypothesis Hwords : hash_words V = nb :: nc :: rest.
Hypothesis Hnb : 0 < nb.
Hypothesis Hlen : Z.of_nat (List.length rest) = nb + nc.
Hypothesis Hsyms : Z.of_nat (List.length (dynsym V)) = nc.
Hypothesis Hvals : forall w, In w rest -> 0 <= w < nc.

Lemma hash_word_tail (k : Z) : 0 <= k < nb + nc ->
  nth_error (hash_words V) (Z.to_nat (2 + k)) = Some (hash_word V (2 + k)) /\
  0 <= hash_word V (2 + k) < nc.
Proof.
  intro Hk; unfold hash_word; rewrite Hwords.
  replace (Z.to_nat (2 + k)) with (S (S (Z.to_nat k))) by lia; simpl.
  split.
  - apply nth_error_nth'; lia.
  - apply Hvals, nth_In; lia.
Qed.

Lemma GetHashChain_ok (c : Z) : 0 <= c < nc ->
  GetHashChain V nb nc c = (Some (hash_word V (2 + nb + c)), [AccChain c]) /\
  0 <= hash_word V (2 + nb + c) < nc.
Proof.
  intro Hc; unfold GetHashChain.
  replace ((0 <=? c) && (c <? nc)) with true
    by (symmetry; apply andb_true_iff; split; [apply Z.leb_le | apply Z.ltb_lt]; lia).
  destruct (hash_word_tail (nb + c)) as [H1 H2]; [lia|].
  rewrite Z.add_assoc in H1, H2; rewrite H1; auto.
Qed.

Lemma chain_iter_range (c : Z) (k : nat) : 0 <= c < nc -> 0 <= chain_iter V nb c k < nc.
Proof.
  revert c; induction k as [|k IH]; intros c Hc; simpl; [exact Hc|].
  apply IH; apply (GetHashChain_ok c Hc).
Qed.

(** A candidate that is reached before any terminator and carries the
    name is found (possibly at an earlier entry of the same name). *)
Lemma chain_walk_reaches (name : list Z)
  (Hnz : forall i n, 0 <= i < nc -> name_of V i = Some n -> i <> 0) :
  forall (k F : nat) (c : Z), 0 <= c < nc -> (k < F)%nat ->
  (forall j, (j < k)%nat -> chain_iter V nb c j <> 0) ->
  name_of V (chain_iter V nb c k) = Some name ->
  exists i s, fst (chain_walk V name nb nc F c) = Found i s.
Proof.
  induction k as [|k IH]; intros F c Hc HkF Hbefore Hname; destruct F as [|F]; try lia.
  - simpl in Hname |- *.
    assert (c <> 0) by (eapply Hnz; eauto).
    replace (c =? 0) with false by (symmetry; apply Z.eqb_neq; auto).
    replace (negb ((0 <? c) && (c <? nc))) with false
      by (symmetry; apply negb_false_iff, andb_true_iff; split; apply Z.ltb_lt; lia).
    unfold name_of in Hname; destruct (GetSymbol V c) as [s|]; [|discriminate].
    apply (proj2 (sym_name_is_true V name s)) in Hname; rewrite Hname; simpl; eauto.
  - simpl.
    assert (c <> 0) by (apply (Hbefore O); lia).
    replace (c =? 0) with false by (symmetry; apply Z.eqb_neq; auto).
    replace (negb ((0 <? c) && (c <? nc))) with false
      by (symmetry; apply negb_false_iff, andb_true_iff; split; apply Z.ltb_lt; lia).
    destruct (GetSymbol_in_range V c) as [s [Hs _]]; [lia|]; rewrite Hs.
    destruct (sym_name_is V name s); [simpl; eauto|].
    destruct (GetHashChain_ok c Hc) as [Hch Hr]; rewrite Hch.
    destruct (IH F (hash_word V (2 + nb + c))) as [i [s' Hw]]; auto; try lia.
    + intros j Hj; apply (Hbefore (S j)); lia.
    + destruct (chain_walk V name nb nc F (hash_word V (2 + nb + c))); simpl in *; eauto.
Qed.

(** A chain that reaches the terminator, for a name no entry carries,
    ends on the terminator. *)
Lemma chain_walk_terminates (name : list Z)
  (Habs : forall s, In s (dynsym V) -> sym_name_is V name s = false) :
  forall (k F : nat) (c : Z), 0 <= c < nc -> (k < F)%nat ->
  chain_iter V nb c k = 0 ->
  fst (chain_walk V name nb nc F c) = Terminator.
Proof.
  induction k as [|k IH]; intros F c Hc HkF Hz; destruct F as [|F]; try lia.
  - simpl in Hz; subst c; reflexivity.
  - simpl. destruct (c =? 0) eqn:E0; [reflexivity|].
    apply Z.eqb_neq in E0.
    replace (negb ((0 <? c) && (c <? nc))) with false
      by (symmetry; apply negb_false_iff, andb_true_iff; split; apply Z.ltb_lt; lia).
    destruct (GetSymbol_in_range V c) as [s [Hs Hin]]; [lia|]; rewrite Hs.
    rewrite (Habs s Hin).
    destruct (GetHashChain_ok c Hc) as [Hch Hr]; rewrite Hch.
    specialize (IH F (hash_word V (2 + nb + c)) Hr ltac:(lia) Hz).
    destruct (chain_walk V name nb nc F (hash_word V (2 + nb + c))); simpl in *; exact IH.
Qed.

End WellFormedProofs.

Lemma wf_hash_table_facts (V : DynViews) :
  wf_hash_table_b V = true ->
  exists nb nc rest,
    hash_words V = nb :: nc :: rest /\ 0 < nb /\
    Z.of_nat (List.length rest) = nb + nc /\
    Z.of_nat (List.length (dynsym V)) = nc /\
    (forall w, In w rest -> 0 <= w < nc) /\
    (forall i n, 0 <= i < nc -> name_of V i = Some n ->
                 i <> 0 /\ on_chain_b V nb nc n i = true) /\
    (forall i j, 0 <= i < nc -> 0 <= j < nc ->
                 same_name (name_of V i) (name_of V j) = true -> i = j) /\
    (forall b, 0 <= b < nb -> exists k, (k < Z.to_nat nc)%nat /\
                 chain_iter V nb (hash_word V (2 + b)) k = 0).
Proof.
  unfold wf_hash_table_b; destruct (hash_words V) as [|nb [|nc rest]] eqn:Hwd;
    try discriminate.
  intro H; repeat rewrite andb_true_iff in H.
  destruct H as [[[[[[H1 H2] H3] H4] H5] H6] H7].
  exists nb, nc, rest.
  refine (conj eq_refl (conj _ (conj _ (conj _ (conj _ (conj _ (conj _ _))))))).
  - apply Z.ltb_lt; exact H1.
  - apply Z.eqb_eq; exact H2.
  - apply Z.eqb_eq; exact H3.
  - intros w Hin; rewrite forallb_forall in H4; specialize (H4 w Hin).
    apply andb_true_iff in H4; destruct H4 as [A B]; apply Z.leb_le in A; apply Z.ltb_lt in B; lia.
  - intros i n Hi Hn; rewrite forallb_forall in H5; specialize (H5 i (proj2 (in_zrange nc i) Hi)).
    rewrite Hn in H5; apply andb_true_iff in H5; destruct H5 as [A B].
    apply negb_true_iff, Z.eqb_neq in A; split; [exact A | exact B].
  - intros i j Hi Hj Hs; rewrite forallb_forall in H6; specialize (H6 i (proj2 (in_zrange nc i) Hi)).
    rewrite forallb_forall in H6; specialize (H6 j (proj2 (in_zrange nc j) Hj)).
    rewrite Hs in H6; simpl in H6; apply Z.eqb_eq; exact H6.
  - intros b Hb; rewrite forallb_forall in H7; specialize (H7 b (proj2 (in_zrange nb b) Hb)).
    apply existsb_exists in H7; destruct H7 as [k [Hk Hz]].
    apply in_seq in Hk; exists k; split; [lia | apply Z.eqb_eq; exact Hz].
Qed.

(** Under a well-formed table, the walk starts from the bucket word of the
    name's hash. *)
Lemma find_dynamic_symbol_walk_wf (V : DynViews) (nb nc : Z) (rest : list Z) (name : list Z) :
  hash_words V = nb :: nc :: rest -> 0 < nb -> 0 <= nc ->
  Z.of_nat (List.length rest) = nb + nc ->
  (forall w, In w rest -> 0 <= w < nc) ->
  fst (find_dynamic_symbol_walk V name) =
    fst (chain_walk V name nb nc (Z.to_nat nc) (hash_word V (2 + elf_hash name mod nb))) /\
  0 <= hash_word V (2 + elf_hash name mod nb) < nc.
Proof.
  intros Hw Hnb Hnc Hlen Hvals.
  assert (Hb : 0 <= elf_hash name mod nb < nb) by (apply Z.mod_pos_bound; lia).
  destruct (hash_word_tail V nb nc rest Hw Hlen Hvals (elf_hash name mod nb)) as [H1 H2]; [lia|].
  split; [|exact H2].
  assert (E1 : GetHashBucketNum V = Some nb) by (unfold GetHashBucketNum; rewrite Hw; reflexivity).
  assert (E2 : GetHashChainNum V = Some nc) by (unfold GetHashChainNum; rewrite Hw; reflexivity).
  unfold find_dynamic_symbol_walk; rewrite E1, E2; unfold GetHashBucket.
  replace (nb <=? 0) with false by (symmetry; apply Z.leb_gt; lia).
  replace ((0 <=? elf_hash name mod nb) && (elf_hash name mod nb <? nb)) with true
    by (symmetry; apply andb_true_iff; split; [apply Z.leb_le | apply Z.ltb_lt]; lia).
  rewrite H1.
  destruct (chain_walk V name nb nc (Z.to_nat nc) (hash_word V (2 + elf_hash name mod nb)));
    reflexivity.
Qed.

(** C1: on a well-formed image, [FindDynamicSymbolAddress] returns what a
    linear scan of the dynamic symbol table matching on name returns; for
    a name the table does not carry, the walk ends on the terminator 0 and
    the result is not-found. *)
Theorem FindDynamicSymbolAddress_refines_linear_scan
    (ef : ElfFileImpl) (V : DynViews) (name : list Z)
    (Hv : dyn_views_ ef = Some V) (Hwf : wf_hash_table_b V = true) :
  FindDynamicSymbolAddress ef name = linear_scan_dynsym ef name /\
  (linear_scan_dynsym ef name = None ->
   fst (find_dynamic_symbol_walk V name) = Terminator).
Proof.
  destruct (wf_hash_table_facts V Hwf)
    as [nb [nc [rest [Hw [Hnb [Hlen [Hsyms [Hvals [Hnamed [Huniq Hterm]]]]]]]]]].
  destruct (find_dynamic_symbol_walk_wf V nb nc rest name Hw Hnb ltac:(lia) Hlen Hvals) as [Hwalk Hstart].
  set (start := hash_word V (2 + elf_hash name mod nb)) in *.
  unfold FindDynamicSymbolAddress, linear_scan_dynsym, FindDynamicSymbol; rewrite Hv, Hwalk.
  destruct (find (sym_name_is V name) (dynsym V)) as [s|] eqn:Hfind.
  - (* the name is present: the walk finds exactly that entry *)
    split; [|discriminate].
    destruct (find_some _ _ Hfind) as [Hin Hs].
    destruct (In_nth_error _ _ Hin) as [idx Hidx].
    assert (Hidx_lt : (idx < List.length (dynsym V))%nat)
      by (apply nth_error_Some; rewrite Hidx; discriminate).
    assert (HgetS : GetSymbol V (Z.of_nat idx) = Some s).
    { unfold GetSymbol.
      replace ((0 <=? Z.of_nat idx) && (Z.of_nat idx <? Z.of_nat (List.length (dynsym V))))
        with true by (symmetry; apply andb_true_iff; split; [apply Z.leb_le | apply Z.ltb_lt]; lia).
      rewrite Nat2Z.id; exact Hidx. }
    assert (Hname : name_of V (Z.of_nat idx) = Some name).
    { unfold name_of; rewrite HgetS; apply sym_name_is_true; exact Hs. }
    destruct (Hnamed (Z.of_nat idx) name ltac:(lia) Hname) as [Hnz Hchain].
    unfold on_chain_b in Hchain; fold start in Hchain.
    apply existsb_exists in Hchain; destruct Hchain as [k [Hk Hk2]].
    apply in_seq in Hk; apply andb_true_iff in Hk2; destruct Hk2 as [Hat Hbefore].
    apply Z.eqb_eq in Hat; rewrite forallb_forall in Hbefore.
    destruct (chain_walk_reaches V nb nc rest Hw Hnb Hlen Hsyms Hvals name
                (fun i n Hi Hn => proj1 (Hnamed i n Hi Hn)) k (Z.to_nat nc) start Hstart
                ltac:(lia))
      as [i' [s' Hfound]].
    + intros j Hj Hz. specialize (Hbefore j ltac:(apply in_seq; lia)).
      rewrite Hz in Hbefore; discriminate.
    + rewrite Hat; exact Hname.
    + rewrite Hfound.
      destruct (chain_walk_found_sound V name nb nc _ _ _ _ Hfound) as [HgetS' Hs'].
      destruct (GetSymbol_range V i' s' HgetS') as [Hi' _].
      assert (Hsame : same_name (name_of V (Z.of_nat idx)) (name_of V i') = true).
      { rewrite Hname; unfold name_of; rewrite HgetS'.
        rewrite (proj1 (sym_name_is_true V name s') Hs'); simpl.
        destruct (list_eq_dec Z.eq_dec name name); congruence. }
      pose proof (Huniq (Z.of_nat idx) i' ltac:(lia) ltac:(lia) Hsame) as Heq.
      rewrite <- Heq, HgetS in HgetS'; inversion HgetS'; reflexivity.
  - (* the name is absent: the walk reaches the terminator *)
    assert (Habs : forall s, In s (dynsym V) -> sym_name_is V name s = false).
    { intros s Hin; exact (find_none _ _ Hfind s Hin). }
    assert (Hb : 0 <= elf_hash name mod nb < nb) by (apply Z.mod_pos_bound; lia).
    destruct (Hterm _ Hb) as [k [Hk Hz]].
    rewrite (chain_walk_terminates V nb nc rest Hw Hnb Hlen Hsyms Hvals name Habs k (Z.to_nat nc)
               start Hstart Hk Hz).
    split; reflexivity.
Qed.

(** C2: [elf_hash] is the standard byte-wise ELF rolling hash: 0 on the
    empty name; after every byte [h = (h << 4) + byte] and, when the top
    nibble [g] is set, [h ^= g >> 24; h &= ~g]; it is a function of its
    input; and the bucket index [h mod nbucket] is below [nbucket]. *)
Theorem elf_hash_standard (name : list Z) (c : Z) (nbucket : Z) (Hnb : 0 < nbucket) :
  elf_hash [] = 0 /\
  elf_hash (name ++ [c]) =
    (let h1 := (Z.shiftl (elf_hash name) 4 + c) mod 2 ^ 32 in
     let g := Z.land h1 0xf0000000 in
     if g =? 0 then h1 else Z.land (Z.lxor h1 (Z.shiftr g 24)) (Z.lnot g)) /\
  (forall name', name' = name -> elf_hash name' = elf_hash name) /\
  0 <= elf_hash name mod nbucket < nbucket.
Proof.
  split; [reflexivity|].
  split; [unfold elf_hash; rewrite elf_hash_from_app; reflexivity|].
  split; [intros name' ->; reflexivity|].
  apply Z.mod_pos_bound; exact Hnb.
Qed.

(** C3: for any image, also one whose chain array has a cycle, a name no
    dynamic symbol carries resolves to not-found, and the walk follows at
    most [nchain] chain links and visits at most [nchain] symbols. *)
Theorem absent_name_walk_bounded (ef : ElfFileImpl) (name : list Z)
    (Habs : linear_scan_dynsym ef name = None) :
  FindDynamicSymbolAddress ef name = None /\
  (forall V, dyn_views_ ef = Some V ->
     (chain_links (snd (find_dynamic_symbol_walk V name)) <= nchain_bound V)%nat /\
     (visited (snd (find_dynamic_symbol_walk V name)) <= nchain_bound V)%nat).
Proof.
  unfold FindDynamicSymbolAddress, linear_scan_dynsym in *.
  destruct (dyn_views_ ef) as [V|]; [|split; [reflexivity | discriminate]].
  destruct (find (sym_name_is V name) (dynsym V)) eqn:Hfind; [discriminate|].
  split.
  - unfold FindDynamicSymbol, find_dynamic_symbol_walk.
    destruct (GetHashBucketNum V) as [nb|]; [|reflexivity].
    destruct (GetHashChainNum V) as [nc|]; [|reflexivity].
    destruct (nb <=? 0); [reflexivity|].
    destruct (GetHashBucket V nb (elf_hash name mod nb)) as [[c|] tr]; [|reflexivity].
    destruct (chain_walk V name nb nc (Z.to_nat nc) c) as [r tr'] eqn:Ew; simpl.
    destruct r as [i s| | |]; try reflexivity.
    destruct (chain_walk_found_sound V name nb nc (Z.to_nat nc) c i s) as [Hs Hn];
      [rewrite Ew; reflexivity|].
    destruct (GetSymbol_range V i s Hs) as [_ Hnth].
    rewrite (find_none _ _ Hfind s (nth_error_In _ _ Hnth)) in Hn; discriminate.
  - intros V' HV; inversion HV; subst V'.
    unfold nchain_bound, find_dynamic_symbol_walk.
    destruct (GetHashBucketNum V) as [nb|];
      [|destruct (GetHashChainNum V); unfold chain_links, visited; simpl; lia].
    destruct (GetHashChainNum V) as [nc|]; [|unfold chain_links, visited; simpl; lia].
    destruct (nb <=? 0); [unfold chain_links, visited; simpl; lia|].
    assert (Htr : forall o tr, GetHashBucket V nb (elf_hash name mod nb) = (o, tr) ->
                  chain_links tr = O /\ visited tr = O).
    { unfold GetHashBucket; intros o tr H.
      destruct ((0 <=? elf_hash name mod nb) && (elf_hash name mod nb <? nb));
        inversion H; subst; auto. }
    destruct (GetHashBucket V nb (elf_hash name mod nb)) as [[c|] tr] eqn:Eb;
      destruct (Htr _ _ eq_refl) as [T1 T2]; [|simpl; lia].
    destruct (chain_walk_trace V name nb nc (Z.to_nat nc) c) as [_ [B1 B2]].
    destruct (chain_walk V name nb nc (Z.to_nat nc) c) as [r tr'] eqn:Ew; simpl in *.
    unfold chain_links, visited in *; rewrite filter_app, length_app, filter_app, length_app.
    lia.
Qed.

(** C4: every bucket index the resolver reads is below [nbucket] and every
    chain and symbol index below [nchain]; an out-of-range candidate is
    read nowhere and never yields a symbol; a symbol the resolver returns
    comes from an in-range index. *)
Theorem resolver_reads_in_bounds (V : DynViews) (name : list Z) (nb nc : Z)
    (Hnb : GetHashBucketNum V = Some nb) (Hnc : GetHashChainNum V = Some nc) :
  Forall (access_in_bounds nb nc) (snd (find_dynamic_symbol_walk V name)) /\
  (forall (F : nat) (c : Z), c <> 0 -> ~ (0 < c < nc) ->
     snd (chain_walk V name nb nc F c) = [] /\
     is_found (fst (chain_walk V name nb nc F c)) = false) /\
  (forall c, fst (GetHashBucket V nb (elf_hash name mod nb)) = Some c ->
     c <> 0 -> ~ (0 < c < nc) -> FindDynamicSymbol V name = None) /\
  (forall i s, fst (find_dynamic_symbol_walk V name) = Found i s ->
     0 < i < nc /\ GetSymbol V i = Some s).
Proof.
  assert (Hfound : forall F c i s, fst (chain_walk V name nb nc F c) = Found i s -> 0 < i < nc).
  { induction F as [|F IH]; intros c i s; simpl; [discriminate|].
    destruct (c =? 0); [discriminate|].
    destruct (negb ((0 <? c) && (c <? nc))) eqn:Er; [discriminate|].
    apply negb_false_iff, andb_true_iff in Er; destruct Er as [E1 E2].
    apply Z.ltb_lt in E1; apply Z.ltb_lt in E2.
    destruct (GetSymbol V c); [|discriminate].
    destruct (sym_name_is V name e); [simpl; intro H; inversion H; subst; lia|].
    destruct (GetHashChain V nb nc c) as [[c'|] tr]; [|discriminate].
    destruct (chain_walk V name nb nc F c') as [r tr'] eqn:Ew; simpl.
    intro H; apply (IH c' i s); rewrite Ew; exact H. }
  unfold find_dynamic_symbol_walk; rewrite Hnb, Hnc.
  split; [|split; [|split]].
  - destruct (nb <=? 0) eqn:Enb; [constructor|].
    unfold GetHashBucket.
    destruct ((0 <=? elf_hash name mod nb) && (elf_hash name mod nb <? nb)) eqn:Eb;
      [|constructor].
    apply andb_true_iff in Eb; destruct Eb as [E1 E2]; apply Z.leb_le in E1; apply Z.ltb_lt in E2.
    destruct (nth_error (hash_words V) (Z.to_nat (2 + elf_hash name mod nb))) as [c|].
    + destruct (chain_walk_trace V name nb nc (Z.to_nat nc) c) as [T _].
      destruct (chain_walk V name nb nc (Z.to_nat nc) c); simpl in *.
      constructor; [simpl; lia | exact T].
    + constructor; [simpl; lia | constructor].
  - intros F c; apply chain_walk_out_of_range.
  - intros c Hc H0 Hr; unfold FindDynamicSymbol, find_dynamic_symbol_walk; rewrite Hnb, Hnc.
    destruct (nb <=? 0); [reflexivity|].
    destruct (GetHashBucket V nb (elf_hash name mod nb)) as [o tr]; simpl in Hc; subst o.
    pose proof (proj2 (chain_walk_out_of_range V name nb nc (Z.to_nat nc) c H0 Hr)) as Hnf.
    destruct (chain_walk V name nb nc (Z.to_nat nc) c) as [r tr']; simpl in *.
    destruct r; simpl in *; congruence.
  - intros i s.
    destruct (nb <=? 0); [discriminate|].
    destruct (GetHashBucket V nb (elf_hash name mod nb)) as [[c|] tr]; [|discriminate].
    destruct (chain_walk V name nb nc (Z.to_nat nc) c) as [r tr'] eqn:Ew; simpl.
    intro Hr; subst r; split.
    + apply (Hfound (Z.to_nat nc) c i s); rewrite Ew; reflexivity.
    + apply (chain_walk_found_sound V name nb nc (Z.to_nat nc) c i s); rewrite Ew; reflexivity.
Qed.

(* ======================================================================== *)
(** * Proofs: Open and the header mapping *)

(** C5: a file whose leading magic, class or byte order does not match the
    compiled layout is rejected by [Open] with a FormatError carrying a
    non-empty message; no object is returned and the live mappings of the
    process are exactly those before the call. *)
Theorem Open_rejects_layout_mismatch (ET : ElfTypes) (mmap_refuses : MemMap -> bool)
    (file : File) (low_4gb : bool) (p : Proc)
    (Hbad : ident_matches ET (file_bytes file) = false) :
  exists msg, Open ET mmap_refuses file low_4gb p = (inl (FormatError msg), p) /\
              msg <> EmptyString.
Proof.
  unfold Open.
  destruct (GetLength file <? Z.of_nat (ehdr_size ET)).
  { eexists; split; [reflexivity | discriminate]. }
  unfold ident_matches in Hbad.
  destruct (magic_ok (file_bytes file)); simpl.
  2: { eexists; split; [reflexivity | discriminate]. }
  destruct (class_ok ET (file_bytes file)); simpl.
  2: { eexists; split; [reflexivity | discriminate]. }
  destruct (data_ok (file_bytes file)); simpl; [discriminate Hbad|].
  eexists; split; [reflexivity | discriminate].
Qed.

Lemma Open_success_map (ET : ElfTypes) (mmap_refuses : MemMap -> bool) (file : File)
    (low_4gb : bool) (p p' : Proc) (ef : ElfFileImpl) :
  Open ET mmap_refuses file low_4gb p = (inr ef, p') ->
  0 < mm_size (map_ ef) /\ segments_ ef = [] /\ base_address_ ef = 0.
Proof.
  unfold Open.
  destruct (GetLength file <? Z.of_nat (ehdr_size ET)); [discriminate|].
  destruct (negb (magic_ok (file_bytes file))); [discriminate|].
  destruct (negb (class_ok ET (file_bytes file))); [discriminate|].
  destruct (negb (data_ok (file_bytes file))); [discriminate|].
  destruct (read_le (file_bytes file) (e_phoff_at ET) (addr_bytes ET)) as [phoff|];
    [|discriminate].
  destruct (read_le (file_bytes file) (e_phentsize_at ET) 2) as [phentsize|]; [|discriminate].
  destruct (read_le (file_bytes file) (e_phnum_at ET) 2) as [phnum|]; [|discriminate].
  destruct (GetLength file <? phoff + phentsize * phnum); [discriminate|].
  destruct (place_region p (Z.max (Z.of_nat (ehdr_size ET)) (phoff + phentsize * phnum)) low_4gb)
    as [a|] eqn:Hpl; [|discriminate].
  match goal with |- context [if mmap_refuses ?m then _ else _] => destruct (mmap_refuses m) end;
    [discriminate|].
  simpl; intro H; inversion H; subst; simpl.
  unfold place_region in Hpl.
  destruct (Z.max (Z.of_nat (ehdr_size ET)) (phoff + phentsize * phnum) <=? 0) eqn:Hs;
    [discriminate|].
  apply Z.leb_gt in Hs; repeat split; lia.
Qed.

Lemma Load_keeps_map (mmap_refuses : MemMap -> bool) (ET : ElfTypes) (ef ef' : ElfFileImpl)
    (executable low_4gb : bool) (res res' : option (nat * MemMap)) (p p' : Proc) :
  Load mmap_refuses ET ef executable low_4gb res p = (inr ef', res', p') ->
  map_ ef' = map_ ef /\ file_path_ ef' = file_path_ ef /\ dyn_views_ ef' = dyn_views_ ef.
Proof.
  unfold Load.
  destruct (program_headers ET ef) as [phs|]; [|discriminate].
  destruct (loaded_address_range phs) as [e|[b size]]; [discriminate|].
  destruct (reserve_span mmap_refuses p res size low_4gb) as [e|[[[rid rmap] r1] p1]];
    [discriminate|].
  destruct (map_segments mmap_refuses phs (mm_begin rmap) executable p1 []) as [[[e built]|built] p2];
    [discriminate|].
  intro H; inversion H; subst; simpl; auto.
Qed.

(** C10: for every instance [Open] returns, [Size() = End() - Begin()] and
    [Begin() <= End()]; [Load] leaves the header mapping, hence all three
    accessors, unchanged. *)
Theorem Begin_End_Size_consistent (ET : ElfTypes) (mmap_refuses : MemMap -> bool)
    (file : File) (low_4gb : bool) (p p' : Proc) (ef : ElfFileImpl)
    (Hopen : Open ET mmap_refuses file low_4gb p = (inr ef, p')) :
  Size ef = End ef - Begin ef /\ Begin ef <= End ef /\
  (forall (load_refuses : MemMap -> bool) executable low res res' q q' ef',
     Load load_refuses ET ef executable low res q = (inr ef', res', q') ->
     Begin ef' = Begin ef /\ End ef' = End ef /\ Size ef' = Size ef).
Proof.
  destruct (Open_success_map ET mmap_refuses file low_4gb p p' ef Hopen) as [Hpos _].
  unfold Size, End, Begin, MemMap_Size, MemMap_End, MemMap_Begin.
  split; [lia|]; split; [lia|].
  intros load_refuses executable low res res' q q' ef' HL.
  destruct (Load_keeps_map load_refuses ET ef ef' executable low res res' q q' HL) as [Hm _].
  rewrite Hm; auto.
Qed.

(* ======================================================================== *)
(** * Proofs: loaded address range *)

Lemma seg_align_pos (ph : Elf_Phdr) : 1 <= seg_align ph.
Proof. unfold seg_align; destruct (p_align ph <=? 0) eqn:E; [lia | apply Z.leb_gt in E; lia]. Qed.

Definition seg_end (ph : Elf_Phdr) : Z := p_vaddr ph + p_memsz ph.

Lemma range_fold_no_load (l : list Elf_Phdr) (acc : option (Z * Z * Z)) :
  filter is_load l = [] -> fold_left range_step l acc = acc.
Proof.
  revert acc; induction l as [|ph l IH]; intros acc; simpl; auto.
  unfold range_step at 2; destruct (is_load ph); [discriminate|]; apply IH.
Qed.

Lemma range_fold_some (l : list Elf_Phdr) :
  forall lo0 hi0 a0, exists lo hi a,
    fold_left range_step l (Some (lo0, hi0, a0)) = Some (lo, hi, a) /\
    lo <= lo0 /\ hi0 <= hi /\ a0 <= a /\
    (forall ph, In ph (filter is_load l) ->
       lo <= p_vaddr ph /\ seg_end ph <= hi /\ seg_align ph <= a) /\
    (lo = lo0 \/ exists ph, In ph (filter is_load l) /\ p_vaddr ph = lo) /\
    (hi = hi0 \/ exists ph, In ph (filter is_load l) /\ seg_end ph = hi) /\
    (a = a0 \/ exists ph, In ph (filter is_load l) /\ seg_align ph = a).
Proof.
  induction l as [|ph l IH]; intros lo0 hi0 a0; simpl.
  - exists lo0, hi0, a0; repeat split; auto; try lia; contradiction.
  - unfold range_step at 2; destruct (is_load ph) eqn:Hl.
    + destruct (IH (Z.min lo0 (p_vaddr ph)) (Z.max hi0 (p_vaddr ph + p_memsz ph))
                   (Z.max a0 (seg_align ph)))
        as [lo [hi [a [Hf [H1 [H2 [H3 [Hall [Elo [Ehi Ea]]]]]]]]]].
      exists lo, hi, a; split; [exact Hf|].
      unfold seg_end in *.
      split; [lia|]; split; [lia|]; split; [lia|]; split.
      { intros q [<-|Hq]; [split; [|split]; lia | apply Hall, Hq]. }
      split; [|split].
      * destruct Elo as [Elo|[q [Hq Eq]]]; [|right; exists q; split; [right|]; auto].
        destruct (Z.min_spec lo0 (p_vaddr ph)) as [[_ M]|[_ M]]; rewrite M in Elo;
          [left; exact Elo | right; exists ph; split; [left|]; auto].
      * destruct Ehi as [Ehi|[q [Hq Eq]]]; [|right; exists q; split; [right|]; auto].
        destruct (Z.max_spec hi0 (p_vaddr ph + p_memsz ph)) as [[_ M]|[_ M]]; rewrite M in Ehi;
          [right; exists ph; split; [left|]; auto | left; exact Ehi].
      * destruct Ea as [Ea|[q [Hq Eq]]]; [|right; exists q; split; [right|]; auto].
        destruct (Z.max_spec a0 (seg_align ph)) as [[_ M]|[_ M]]; rewrite M in Ea;
          [right; exists ph; split; [left|]; auto | left; exact Ea].
    + apply IH.
Qed.

(** The span of a table with loadable entries: minimum start, maximum end
    and maximum alignment, each attained by some loadable entry. *)
Lemma range_fold_loads (l : list Elf_Phdr) :
  filter is_load l <> [] ->
  exists lo hi a,
    fold_left range_step l None = Some (lo, hi, a) /\
    (forall ph, In ph (filter is_load l) ->
       lo <= p_vaddr ph /\ seg_end ph <= hi /\ seg_align ph <= a) /\
    (exists ph, In ph (filter is_load l) /\ p_vaddr ph = lo) /\
    (exists ph, In ph (filter is_load l) /\ seg_end ph = hi) /\
    (exists ph, In ph (filter is_load l) /\ seg_align ph = a).
Proof.
  induction l as [|ph l IH]; simpl; [congruence|].
  unfold range_step at 2; destruct (is_load ph) eqn:Hl; intro Hne.
  - destruct (range_fold_some l (p_vaddr ph) (p_vaddr ph + p_memsz ph) (seg_align ph))
      as [lo [hi [a [Hf [H1 [H2 [H3 [Hall [Elo [Ehi Ea]]]]]]]]]].
    exists lo, hi, a; split; [exact Hf|]; unfold seg_end in *.
    split; [intros q [<-|Hq]; [split; [|split]; lia | apply Hall, Hq]|].
    split; [|split].
    + destruct Elo as [E|[q [Hq E]]]; [exists ph; split; [left|]; auto | exists q; split; [right|]; auto].
    + destruct Ehi as [E|[q [Hq E]]]; [exists ph; split; [left|]; auto | exists q; split; [right|]; auto].
    + destruct Ea as [E|[q [Hq E]]]; [exists ph; split; [left|]; auto | exists q; split; [right|]; auto].
  - apply IH, Hne.
Qed.

Lemma RoundDown_le (x a : Z) : 0 < a -> RoundDown x a <= x.
Proof. intro Ha; unfold RoundDown; pose proof (Z.mod_pos_bound x a Ha); lia. Qed.

Lemma RoundUp_ge (x a : Z) : 0 < a -> x <= RoundUp x a.
Proof.
  intro Ha; unfold RoundUp, RoundDown; pose proof (Z.mod_pos_bound (x + a - 1) a Ha); lia.
Qed.

Lemma RoundDown_mul (x a : Z) : 0 < a -> RoundDown x a = a * (x / a).
Proof. intro Ha; unfold RoundDown; rewrite (Z.mod_eq x a) by lia; lia. Qed.

Lemma span_multiple (lo hi a : Z) : 0 < a -> (RoundUp hi a - RoundDown lo a) mod a = 0.
Proof.
  intro Ha; unfold RoundUp; rewrite !RoundDown_mul by exact Ha.
  replace (a * ((hi + a - 1) / a) - a * (lo / a)) with (((hi + a - 1) / a - lo / a) * a) by ring.
  apply Z.mod_mul; lia.
Qed.

Lemma pairwise_filter {A : Type} (R : A -> A -> bool) (f : A -> bool) (l : list A) :
  pairwise R l = true -> pairwise R (filter f l) = true.
Proof.
  induction l as [|x l IH]; simpl; auto.
  intro H; apply andb_true_iff in H; destruct H as [H1 H2].
  destruct (f x); simpl; [|auto].
  apply andb_true_iff; split; [|auto].
  rewrite forallb_forall in *; intros y Hy; apply filter_In in Hy; apply H1, Hy.
Qed.

Lemma sum_memsz_split (f : Elf_Phdr -> bool) (l : list Elf_Phdr) :
  sum_memsz l = sum_memsz (filter f l) + sum_memsz (filter (fun y => negb (f y)) l).
Proof. induction l as [|x l IH]; simpl; auto; destruct (f x); simpl; lia. Qed.

Lemma filter_length_le {A : Type} (f : A -> bool) (l : list A) :
  (List.length (filter f l) <= List.length l)%nat.
Proof. induction l as [|x l IH]; simpl; auto; destruct (f x); simpl; lia. Qed.

(** Disjoint intervals inside [[lo, hi)] add up to at most [hi - lo]. *)
Lemma disjoint_sum_le (n : nat) :
  forall l lo hi, (List.length l <= n)%nat -> pairwise vm_disjoint l = true ->
  (forall ph, In ph l -> lo <= p_vaddr ph /\ seg_end ph <= hi /\ 0 <= p_memsz ph) ->
  lo <= hi -> sum_memsz l <= hi - lo.
Proof.
  induction n as [|n IH]; intros l lo hi Hlen Hpw Hin Hlh.
  - destruct l; simpl in *; [lia | lia].
  - destruct l as [|x r]; simpl; [lia|].
    simpl in Hpw; apply andb_true_iff in Hpw; destruct Hpw as [Hx Hr].
    rewrite (sum_memsz_split (fun y => seg_end y <=? p_vaddr x) r).
    destruct (Hin x (or_introl eq_refl)) as [Hx1 [Hx2 Hx3]]; unfold seg_end in Hx2.
    assert (HL : sum_memsz (filter (fun y => seg_end y <=? p_vaddr x) r) <= p_vaddr x - lo).
    { apply IH.
      - simpl in Hlen; pose proof (filter_length_le (fun y => seg_end y <=? p_vaddr x) r); lia.
      - apply pairwise_filter, Hr.
      - intros y Hy; apply filter_In in Hy; destruct Hy as [Hy Hle]; apply Z.leb_le in Hle.
        destruct (Hin y (or_intror Hy)) as [A [B C]]; unfold seg_end in *; lia.
      - lia. }
    assert (HR : sum_memsz (filter (fun y => negb (seg_end y <=? p_vaddr x)) r)
                 <= hi - (p_vaddr x + p_memsz x)).
    { apply IH.
      - simpl in Hlen; pose proof (filter_length_le (fun y => negb (seg_end y <=? p_vaddr x)) r); lia.
      - apply pairwise_filter, Hr.
      - intros y Hy; apply filter_In in Hy; destruct Hy as [Hy Hgt].
        apply negb_true_iff, Z.leb_gt in Hgt.
        rewrite forallb_forall in Hx; specialize (Hx y Hy); unfold vm_disjoint in Hx.
        apply orb_true_iff in Hx; destruct (Hin y (or_intror Hy)) as [A [B C]].
        unfold seg_end in *; destruct Hx as [Hx|Hx]; apply Z.leb_le in Hx; lia.
      - lia. }
    lia.
Qed.

Lemma sum_filesz_le_memsz (l : list Elf_Phdr) :
  (forall ph, In ph l -> p_filesz ph <= p_memsz ph) -> sum_filesz l <= sum_memsz l.
Proof.
  induction l as [|x l IH]; simpl; [lia|]; intro H.
  specialize (H x (or_introl eq_refl)) as Hx.
  assert (sum_filesz l <= sum_memsz l) by (apply IH; auto); lia.
Qed.

(** C6: [GetLoadedAddressRange] is the span from the minimum [p_vaddr] to
    the maximum [p_vaddr + p_memsz] over the loadable entries, both rounded
    outward to the largest alignment (each extremum attained by an entry);
    a FormatError without loadable entries.  The size is a multiple of that
    alignment and, on a valid image, at least the sum of the loadable file
    sizes. *)
Theorem loaded_address_range_spec (ET : ElfTypes) (ef : ElfFileImpl) (phs : list Elf_Phdr)
    (Hph : program_headers ET ef = Some phs) :
  (filter is_load phs = [] ->
     exists msg, GetLoadedAddressRange ET ef = inl (FormatError msg)) /\
  (filter is_load phs <> [] ->
     exists lo hi a,
       GetLoadedAddressRange ET ef = inr (RoundDown lo a, RoundUp hi a - RoundDown lo a) /\
       GetLoadedSize ET ef = inr (RoundUp hi a - RoundDown lo a) /\
       (forall ph, In ph (filter is_load phs) ->
          lo <= p_vaddr ph /\ p_vaddr ph + p_memsz ph <= hi /\ seg_align ph <= a) /\
       (exists ph, In ph (filter is_load phs) /\ p_vaddr ph = lo) /\
       (exists ph, In ph (filter is_load phs) /\ p_vaddr ph + p_memsz ph = hi) /\
       (exists ph, In ph (filter is_load phs) /\ seg_align ph = a) /\
       (RoundUp hi a - RoundDown lo a) mod a = 0 /\
       (valid_segments phs = true ->
          sum_filesz (filter is_load phs) <= RoundUp hi a - RoundDown lo a)).
Proof.
  unfold GetLoadedSize, GetLoadedAddressRange; rewrite Hph; unfold loaded_address_range.
  split.
  - intro H0; rewrite (range_fold_no_load phs None H0); eexists; reflexivity.
  - intro Hne.
    destruct (range_fold_loads phs Hne) as [lo [hi [a [Hf [Hall [Elo [Ehi Ea]]]]]]].
    rewrite Hf; exists lo, hi, a.
    assert (Ha : 0 < a).
    { destruct Ea as [q [_ Eq]]; pose proof (seg_align_pos q); lia. }
    split; [reflexivity|]; split; [reflexivity|]; split; [exact Hall|].
    split; [exact Elo|]; split; [exact Ehi|]; split; [exact Ea|].
    split; [apply span_multiple, Ha|].
    intro Hv; unfold valid_segments in Hv.
    apply andb_true_iff in Hv; destruct Hv as [Hv Hpw]; apply andb_true_iff in Hv;
      destruct Hv as [_ Hsz]; rewrite forallb_forall in Hsz.
    assert (Hfm : forall ph, In ph (filter is_load phs) -> 0 <= p_filesz ph <= p_memsz ph).
    { intros ph Hin; specialize (Hsz ph Hin); apply andb_true_iff in Hsz.
      destruct Hsz as [A B]; apply Z.leb_le in A; apply Z.leb_le in B; lia. }
    assert (Hlh : lo <= hi).
    { destruct Elo as [q [Hq Eq]]; destruct (Hall q Hq) as [_ [B _]];
        pose proof (Hfm q Hq); unfold seg_end in *; lia. }
    pose proof (sum_filesz_le_memsz (filter is_load phs) ltac:(intros ph Hin; apply Hfm, Hin)).
    pose proof (disjoint_sum_le (List.length (filter is_load phs)) (filter is_load phs) lo hi
                  (Nat.le_refl _) Hpw
                  ltac:(intros ph Hin; destruct (Hall ph Hin) as [A [B _]];
                        pose proof (Hfm ph Hin); repeat split; lia) Hlh).
    pose proof (RoundDown_le lo a Ha); pose proof (RoundUp_ge hi a Ha); lia.
Qed.

(* ======================================================================== *)
(** * Proofs: Load *)

Lemma place_region_fits (p : Proc) (size : Z) (low_4gb : bool) (a : Z) :
  place_region p size low_4gb = Some a ->
  0 < size /\ a + size <= (if low_4gb then low_4gb_limit else user_address_limit).
Proof.
  unfold place_region.
  destruct (size <=? 0) eqn:Hs; [discriminate|]; apply Z.leb_gt in Hs.
  set (limit := if low_4gb then low_4gb_limit else user_address_limit).
  assert (Hinv : forall cands acc,
            (forall x, acc = Some x -> x + size <= limit) ->
            forall x, fold_left (fun acc c => if place_fits p size limit c
                                 then match acc with None => Some c | Some a => Some (Z.min a c) end
                                 else acc) cands acc = Some x -> x + size <= limit).
  { induction cands as [|c cands IH]; intros acc Hacc; simpl; [exact Hacc|].
    apply IH; destruct (place_fits p size limit c) eqn:Hf; [|exact Hacc].
    unfold place_fits in Hf; apply andb_true_iff in Hf; destruct Hf as [Hf _].
    apply andb_true_iff in Hf; destruct Hf as [_ Hf]; apply Z.leb_le in Hf.
    destruct acc as [a0|]; intros x Hx; inversion Hx; subst.
    - specialize (Hacc a0 eq_refl); lia.
    - exact Hf. }
  intro H; split; [exact Hs|]; eapply Hinv; [|exact H]; discriminate.
Qed.

Lemma reserve_span_ok (mmap_refuses : MemMap -> bool) (p : Proc)
    (res : option (nat * MemMap)) (size : Z) (low_4gb : bool)
    (tid : nat) (take : MemMap) (res' : option (nat * MemMap)) (p1 : Proc) :
  reserve_span mmap_refuses p res size low_4gb = inr (tid, take, res', p1) ->
  mm_prot take = PROT_NONE /\ mm_size take = size /\
  In (tid, take) (live p1) /\
  (forall e, In e (live p1) -> e = (tid, take) \/ In e (live p) \/ res' = Some e) /\
  (res = None -> 0 < size /\ mm_begin take + size <= (if low_4gb then low_4gb_limit
                                                       else user_address_limit)) /\
  (forall rid r, res = Some (rid, r) -> mm_begin take = mm_begin r).
Proof.
  unfold reserve_span; destruct res as [[rid r]|].
  - destruct (mm_size r <? size); [discriminate|].
    intro H; inversion H; subst; clear H.
    destruct (0 <? mm_size r - size) eqn:Hrem; unfold unmap_ids; simpl.
    + split; [reflexivity|]; split; [reflexivity|]; split; [left; reflexivity|].
      split; [|split; [discriminate|intros rid' r' Hr; inversion Hr; reflexivity]].
      intros e [He|[He|He]]; [left; auto | right; right; rewrite He; reflexivity|].
      right; left; apply filter_In in He; tauto.
    + split; [reflexivity|]; split; [reflexivity|]; split; [left; reflexivity|].
      split; [|split; [discriminate|intros rid' r' Hr; inversion Hr; reflexivity]].
      intros e [He|He]; [left; auto|].
      right; left; apply filter_In in He; tauto.
  - destruct (place_region p size low_4gb) as [a|] eqn:Hpl; [|discriminate].
    destruct (mmap_refuses (anon_map a size)); [discriminate|].
    intro H; inversion H; subst; clear H; simpl.
    destruct (place_region_fits p size low_4gb a Hpl) as [Hs Hlim].
    split; [reflexivity|]; split; [reflexivity|]; split; [left; reflexivity|].
    split; [intros e [He|He]; [left; auto | right; left; exact He]|].
    split; [intros _; simpl; split; lia | intros rid r Hr; discriminate].
Qed.

Lemma map_segments_success (mmap_refuses : MemMap -> bool) (base : Z) (executable : bool) :
  forall phs p built out p',
  map_segments mmap_refuses phs base executable p built = (inr out, p') ->
  map snd out = map snd (rev built) ++ map (segment_map base executable) (filter is_load phs) /\
  (forall ph, In ph (filter is_load phs) ->
     mmap_refuses (segment_map base executable ph) = false) /\
  (forall e, In e (live p) -> In e (live p')) /\
  ((forall e, In e built -> In e (live p)) -> forall e, In e out -> In e (live p')).
Proof.
  induction phs as [|ph phs IH]; intros p built out p' H; simpl in H.
  - inversion H; subst; simpl; rewrite app_nil_r; repeat split; auto.
    + contradiction.
    + intros Hb e He; apply Hb, in_rev, He.
  - destruct (is_load ph) eqn:Hl; simpl in H.
    + destruct (negb (p_offset ph mod seg_align ph =? p_vaddr ph mod seg_align ph));
        [discriminate|].
      destruct (mmap_refuses (segment_map base executable ph)) eqn:Hr; [discriminate|].
      destruct (IH _ _ _ _ H) as [A [B [C D]]].
      simpl; rewrite Hl; simpl.
      split; [rewrite A; simpl; rewrite map_app, <- app_assoc; reflexivity|].
      split; [intros q [<-|Hq]; [exact Hr | apply B, Hq]|].
      split; [intros e He; apply C; simpl; right; exact He|].
      intros Hb; apply D; intros e [<-|He]; simpl; [left; reflexivity | right; apply Hb, He].
    + simpl; rewrite Hl; exact (IH _ _ _ _ H).
Qed.

Lemma map_segments_failure (mmap_refuses : MemMap -> bool) (base : Z) (executable : bool) :
  forall phs p built err built' p',
  map_segments mmap_refuses phs base executable p built = (inl (err, built'), p') ->
  (forall e, In e built -> In e built') /\
  (forall e, In e (live p') -> In e (live p) \/ In e built') /\
  (forall msg ph, err = AllocationError msg (Some ph) ->
     In ph (filter is_load phs) /\ mmap_refuses (segment_map base executable ph) = true).
Proof.
  induction phs as [|ph phs IH]; intros p built err built' p' H; simpl in H; [discriminate|].
  destruct (is_load ph) eqn:Hl; simpl in H.
  - destruct (negb (p_offset ph mod seg_align ph =? p_vaddr ph mod seg_align ph)).
    { inversion H; subst.
      split; [auto|]; split; [auto|]; intros msg q Hq; discriminate. }
    destruct (mmap_refuses (segment_map base executable ph)) eqn:Hr.
    { inversion H; subst.
      split; [auto|]; split; [auto|]; intros msg q Hq; inversion Hq; subst.
      simpl; rewrite Hl; split; [left; reflexivity | exact Hr]. }
    destruct (IH _ _ _ _ _ H) as [A [B C]].
    split; [intros e He; apply A; right; exact He|].
    split.
    + intros e He; destruct (B e He) as [[<-|He']|He']; auto.
      right; apply A; left; reflexivity.
    + intros msg q Hq; destruct (C msg q Hq) as [C1 C2]; simpl; rewrite Hl; split; [right|]; auto.
  - simpl; rewrite Hl; exact (IH _ _ _ _ _ H).
Qed.

Lemma segment_prot_no_exec (ph : Elf_Phdr) : Z.land (segment_prot false ph) PROT_EXEC = 0.
Proof.
  unfold segment_prot; simpl.
  destruct (has_flag (p_flags ph) PF_W); destruct (has_flag (p_flags ph) PF_R); reflexivity.
Qed.

Lemma Load_success_shape (mmap_refuses : MemMap -> bool) (ET : ElfTypes) (ef ef' : ElfFileImpl)
    (executable low_4gb : bool) (res res' : option (nat * MemMap)) (p p' : Proc) :
  Load mmap_refuses ET ef executable low_4gb res p = (inr ef', res', p') ->
  exists phs rmap lo size,
    program_headers ET ef = Some phs /\
    loaded_address_range phs = inr (lo, size) /\
    segments_ ef' = rmap :: map (segment_map (base_address_ ef') executable) (filter is_load phs) /\
    base_address_ ef' = mm_begin rmap /\ mm_prot rmap = PROT_NONE /\ mm_size rmap = size /\
    (forall m, In m (segments_ ef') -> exists id, In (id, m) (live p')) /\
    (forall ph, In ph (filter is_load phs) ->
       mmap_refuses (segment_map (base_address_ ef') executable ph) = false) /\
    (res = None -> 0 < size /\ mm_begin rmap + size <= (if low_4gb then low_4gb_limit
                                                        else user_address_limit)) /\
    (forall rid r, res = Some (rid, r) -> mm_begin rmap = mm_begin r).
Proof.
  unfold Load.
  destruct (program_headers ET ef) as [phs|] eqn:Hph; [|discriminate].
  destruct (loaded_address_range phs) as [e|[lo size]] eqn:Hr; [discriminate|].
  destruct (reserve_span mmap_refuses p res size low_4gb) as [e|[[[tid rmap] r1] p1]] eqn:Hres;
    [discriminate|].
  destruct (map_segments mmap_refuses phs (mm_begin rmap) executable p1 []) as [[[e built]|built] p2]
    eqn:Hms; [discriminate|].
  intro H; inversion H; subst; clear H; simpl.
  destruct (reserve_span_ok mmap_refuses p res size low_4gb tid rmap res' p1 Hres)
    as [R1 [R2 [R3 [R4 [R5 R6]]]]].
  destruct (map_segments_success mmap_refuses (mm_begin rmap) executable phs p1 [] built p' Hms)
    as [M1 [M2 [M3 M4]]].
  exists phs, rmap, lo, size.
  split; [reflexivity|]; split; [exact Hr|].
  split; [simpl in M1; rewrite M1; reflexivity|].
  split; [reflexivity|]; split; [exact R1|]; split; [exact R2|].
  split.
  { intros m [<-|Hm]; [exists tid; apply M3, R3|].
    apply in_map_iff in Hm; destruct Hm as [e [<- He]].
    exists (fst e); destruct e as [i m]; apply (M4 ltac:(intros x Hx; contradiction)), He. }
  split; [exact M2|]; split; [exact R5 | exact R6].
Qed.

(** C7 (amended): [Load] with [executable = false] gives every mapping it
    keeps a protection without execute, whatever the segments' flags;
    each segment's protection otherwise follows its read and write flags.
    On the sample image (one read+execute segment at offset 0, size 0x1000,
    vaddr 0, alignment 0x1000) the segment mapping has size 0x1000 and
    protection read-only, and [GetBaseAddress()] is its start. *)
Theorem Load_not_executable :
  (forall (mmap_refuses : MemMap -> bool) (ET : ElfTypes) (ef ef' : ElfFileImpl)
          (low_4gb : bool) (res res' : option (nat * MemMap)) (p p' : Proc),
     Load mmap_refuses ET ef false low_4gb res p = (inr ef', res', p') ->
     Forall (fun m => Z.land (mm_prot m) PROT_EXEC = 0) (segments_ ef') /\
     exists rmap phs, program_headers ET ef = Some phs /\
       segments_ ef' = rmap :: map (segment_map (base_address_ ef') false) (filter is_load phs) /\
       Forall (fun ph => mm_prot (segment_map (base_address_ ef') false ph) =
                         segment_prot false ph) (filter is_load phs)) /\
  match sample_load no_refusal false false None (fun p => p) with
  | Some (inr ef', _, _) =>
      match segments_ ef' with
      | [_; seg] => mm_size seg = 0x1000 /\ mm_prot seg = PROT_READ /\
                    GetBaseAddress ef' = mm_begin seg
      | _ => False
      end
  | _ => False
  end.
Proof.
  split.
  - intros mmap_refuses ET ef ef' low_4gb res res' p p' H.
    destruct (Load_success_shape mmap_refuses ET ef ef' false low_4gb res res' p p' H)
      as [phs [rmap [lo [size [Hph [_ [Hseg [_ [Hprot _]]]]]]]]].
    split.
    + rewrite Hseg; constructor; [rewrite Hprot; reflexivity|].
      apply Forall_forall; intros m Hm; apply in_map_iff in Hm; destruct Hm as [ph [<- _]].
      apply segment_prot_no_exec.
    + exists rmap, phs; split; [exact Hph|]; split; [exact Hseg|].
      apply Forall_forall; intros ph _; reflexivity.
  - vm_compute; repeat split.
Qed.

Lemma Load_failure_cleanup (mmap_refuses : MemMap -> bool) (ET : ElfTypes)
    (ef : ElfFileImpl) (executable low_4gb : bool) (res : option (nat * MemMap)) (p : Proc)
    (e : ElfError) (res' : option (nat * MemMap)) (p' : Proc) :
  Load mmap_refuses ET ef executable low_4gb res p = (inl e, res', p') ->
  (forall x, In x (live p') -> In (fst x) (map fst (live p)) \/ res' = Some x) /\
  (forall msg ph, e = AllocationError msg (Some ph) ->
     exists phs b, program_headers ET ef = Some phs /\
       Load_base mmap_refuses ET ef low_4gb res p = Some b /\
       In ph (filter is_load phs) /\ mmap_refuses (segment_map b executable ph) = true).
Proof.
unfold Load.
  destruct (program_headers ET ef) as [phs|] eqn:Hph.
  2: { intro H; inversion H; subst; split;
       [intros x Hx; left; apply in_map, Hx | intros msg ph Hm; discriminate]. }
  destruct (loaded_address_range phs) as [e'|[lo size]] eqn:Hr.
  { intro H; inversion H; subst; split; [intros x Hx; left; apply in_map, Hx|].
    intros msg ph Hm; subst; unfold loaded_address_range in Hr.
    destruct (fold_left range_step phs None) as [[[? ?] ?]|]; discriminate. }
  destruct (reserve_span mmap_refuses p res size low_4gb) as [e'|[[[tid rmap] r1] p1]] eqn:Hres.
  { intro H; injection H as He Hr' Hp; subst e p'; split; [intros x Hx; left; apply in_map, Hx|].
    intros msg ph Hm; subst e'; unfold reserve_span in Hres.
    destruct res as [[rid r]|].
    - destruct (mm_size r <? size); [discriminate|].
      destruct (add_map _ _); discriminate.
    - destruct (place_region p size low_4gb); [|discriminate].
      destruct (mmap_refuses _); [discriminate|]; destruct (add_map _ _); discriminate. }
  destruct (map_segments mmap_refuses phs (mm_begin rmap) executable p1 []) as [[[err built]|built] p2]
    eqn:Hms.
  2: discriminate.
  intro H; inversion H; subst; clear H.
  destruct (reserve_span_ok mmap_refuses p res size low_4gb tid rmap res' p1 Hres)
    as [_ [_ [_ [R4 _]]]].
  destruct (map_segments_failure mmap_refuses (mm_begin rmap) executable phs p1 [] e built p2 Hms)
    as [_ [F2 F3]].
  split.
  + intros x Hx; unfold unmap_ids in Hx; cbn [live] in Hx; apply filter_In in Hx.
    destruct Hx as [Hx Hnot]; apply negb_true_iff in Hnot.
    assert (Hout : forall i, In i (tid :: map fst built) -> fst x <> i).
    { intros i Hi Heq; subst i.
      assert (existsb (Nat.eqb (fst x)) (tid :: map fst built) = true)
        by (apply existsb_exists; exists (fst x); split; [exact Hi | apply Nat.eqb_refl]).
      congruence. }
    destruct (F2 x Hx) as [Hx1|Hx1].
    * destruct (R4 x Hx1) as [Ex|[Ex|Ex]].
      -- exfalso; apply (Hout tid); [left; reflexivity | rewrite Ex; reflexivity].
      -- left; apply in_map, Ex.
      -- right; exact Ex.
    * exfalso; apply (Hout (fst x)); [right; apply in_map, Hx1 | reflexivity].
  + intros msg ph Hm; destruct (F3 msg ph Hm) as [G1 G2].
    exists phs, (mm_begin rmap); split; [reflexivity|]; split; [|auto].
    unfold Load_base; rewrite Hph, Hr, Hres; reflexivity.
Qed.

Lemma map_segments_first_refusal (mmap_refuses : MemMap -> bool) (base : Z) (executable : bool)
    (pre : list Elf_Phdr) :
  forall ph post p built,
    is_load ph = true ->
    (forall q, In q (filter is_load pre) ->
       p_offset q mod seg_align q = p_vaddr q mod seg_align q /\
       mmap_refuses (segment_map base executable q) = false) ->
    p_offset ph mod seg_align ph = p_vaddr ph mod seg_align ph ->
    mmap_refuses (segment_map base executable ph) = true ->
    exists built' p',
      map_segments mmap_refuses (pre ++ ph :: post) base executable p built =
      (inl (AllocationError "Failed to map ELF file segment" (Some ph), built'), p').
Proof.
  induction pre as [|q pre IH]; intros ph post p built Hl Hpre Hal Href; simpl.
  - rewrite Hl, (proj2 (Z.eqb_eq _ _) Hal), Href; simpl; eauto.
  - destruct (is_load q) eqn:Hq; simpl.
    + destruct (Hpre q) as [Hqa Hqr]; [simpl; rewrite Hq; left; reflexivity|].
      rewrite (proj2 (Z.eqb_eq _ _) Hqa), Hqr; simpl.
      destruct (add_map p (segment_map base executable q)) as [id p0].
      apply IH; auto.
      intros q' Hq'; apply Hpre; simpl; rewrite Hq; right; exact Hq'.
    + apply IH; auto.
      intros q' Hq'; apply Hpre; simpl; rewrite Hq; exact Hq'.
Qed.

Lemma Load_base_success (mmap_refuses : MemMap -> bool) (ET : ElfTypes) (ef ef' : ElfFileImpl)
    (executable low_4gb : bool) (res res' : option (nat * MemMap)) (p p' : Proc) :
  Load mmap_refuses ET ef executable low_4gb res p = (inr ef', res', p') ->
  Load_base mmap_refuses ET ef low_4gb res p = Some (base_address_ ef').
Proof.
  unfold Load, Load_base.
  destruct (program_headers ET ef) as [phs|]; [|discriminate].
  destruct (loaded_address_range phs) as [?|[lo size]]; [discriminate|].
  destruct (reserve_span mmap_refuses p res size low_4gb) as [?|[[[tid rmap] r1] p1]];
    [discriminate|].
  destruct (map_segments mmap_refuses phs (mm_begin rmap) executable p1 [])
    as [[[err built]|built] p2]; [discriminate|].
  intro H; inversion H; reflexivity.
Qed.

(** C8: a failing [Load] leaves no mapping it established: every mapping
    live afterwards was live before the call or is what remains of the
    caller's reservation; an AllocationError naming a segment names a
    loadable entry whose mapping, at the base [Load] placed the span at,
    the platform refused.  Conversely, when the platform refuses the
    mapping of a loadable entry at that base, every loadable entry before
    it being well aligned and mapped, [Load] fails with the AllocationError
    naming that entry and, again, leaves only the mappings live before the
    call and the rest of the reservation.  A successful [Load] has its
    base at that placement, keeps the reserved span and one mapping per
    loadable entry, in header order, in [segments_], all of them live, and
    no segment mapping was refused. *)
Theorem Load_all_or_nothing (mmap_refuses : MemMap -> bool) (ET : ElfTypes)
    (ef : ElfFileImpl) (executable low_4gb : bool) (res : option (nat * MemMap)) (p : Proc) :
  (forall e res' p',
     Load mmap_refuses ET ef executable low_4gb res p = (inl e, res', p') ->
     (forall x, In x (live p') -> In (fst x) (map fst (live p)) \/ res' = Some x) /\
     (forall msg ph, e = AllocationError msg (Some ph) ->
        exists phs b, program_headers ET ef = Some phs /\
          Load_base mmap_refuses ET ef low_4gb res p = Some b /\
          In ph (filter is_load phs) /\ mmap_refuses (segment_map b executable ph) = true)) /\
  (forall phs pre ph post b,
     program_headers ET ef = Some phs ->
     phs = pre ++ ph :: post ->
     is_load ph = true ->
     (forall q, In q (filter is_load pre) ->
        p_offset q mod seg_align q = p_vaddr q mod seg_align q /\
        mmap_refuses (segment_map b executable q) = false) ->
     p_offset ph mod seg_align ph = p_vaddr ph mod seg_align ph ->
     Load_base mmap_refuses ET ef low_4gb res p = Some b ->
     mmap_refuses (segment_map b executable ph) = true ->
     exists res' p',
       Load mmap_refuses ET ef executable low_4gb res p =
         (inl (AllocationError "Failed to map ELF file segment" (Some ph)), res', p') /\
       (forall x, In x (live p') -> In (fst x) (map fst (live p)) \/ res' = Some x)) /\
  (forall ef' res' p',
     Load mmap_refuses ET ef executable low_4gb res p = (inr ef', res', p') ->
     Load_base mmap_refuses ET ef low_4gb res p = Some (base_address_ ef') /\
     exists phs rmap, program_headers ET ef = Some phs /\
       segments_ ef' = rmap :: map (segment_map (base_address_ ef') executable) (filter is_load phs) /\
       (forall m, In m (segments_ ef') -> exists id, In (id, m) (live p')) /\
       (forall ph, In ph (filter is_load phs) ->
          mmap_refuses (segment_map (base_address_ ef') executable ph) = false)).
Proof.
  split; [|split].
  - intros e res' p' H; exact (Load_failure_cleanup mmap_refuses ET ef executable low_4gb res p
                                 e res' p' H).
  - intros phs pre ph post b Hph Hsplit Hl Hpre Hal Hb Href.
    unfold Load_base in Hb; rewrite Hph in Hb.
    destruct (loaded_address_range phs) as [?|[lo size]] eqn:Hr; [discriminate|].
    destruct (reserve_span mmap_refuses p res size low_4gb) as [?|[[[tid rmap] r1] p1]] eqn:Hres;
      [discriminate|].
    injection Hb as Hb; subst b.
    destruct (map_segments_first_refusal mmap_refuses (mm_begin rmap) executable pre ph post p1 []
                Hl Hpre Hal Href) as [built' [p2 Hms]].
    rewrite <- Hsplit in Hms.
    assert (HL : Load mmap_refuses ET ef executable low_4gb res p =
                 (inl (AllocationError "Failed to map ELF file segment" (Some ph)), r1,
                  unmap_ids (tid :: map fst built') p2)).
    { unfold Load; rewrite Hph, Hr, Hres; cbv beta iota zeta; rewrite Hms; reflexivity. }
    exists r1, (unmap_ids (tid :: map fst built') p2); split; [exact HL|].
    exact (proj1 (Load_failure_cleanup mmap_refuses ET ef executable low_4gb res p _ _ _ HL)).
  - intros ef' res' p' H; split; [exact (Load_base_success mmap_refuses ET ef ef' executable
                                          low_4gb res res' p p' H)|].
    destruct (Load_success_shape mmap_refuses ET ef ef' executable low_4gb res res' p p' H)
      as [phs [rmap [lo [size [Hph [_ [Hseg [_ [_ [_ [Hlive [Hok _]]]]]]]]]]]].
    exists phs, rmap; auto.
Qed.

(** C9 (amended): a successful [Load] under the low-4GB constraint without a
    caller-provided reservation places the whole span, hence the base
    address, below 2^32; with a reservation the span starts at the
    reservation's start. *)
Theorem Load_low_4gb_base (mmap_refuses : MemMap -> bool) (ET : ElfTypes) (ef ef' : ElfFileImpl)
    (executable : bool) (res res' : option (nat * MemMap)) (p p' : Proc)
    (H : Load mmap_refuses ET ef executable true res p = (inr ef', res', p')) :
  (res = None -> GetBaseAddress ef' < 2 ^ 32 /\
                 exists size, GetLoadedSize ET ef = inr size /\
                              GetBaseAddress ef' + size <= 2 ^ 32) /\
  (forall rid r, res = Some (rid, r) -> GetBaseAddress ef' = mm_begin r).
Proof.
  destruct (Load_success_shape mmap_refuses ET ef ef' executable true res res' p p' H)
    as [phs [rmap [lo [size [Hph [Hr [_ [Hbase [_ [_ [_ [_ [Hnone Hsome]]]]]]]]]]]]].
  unfold GetBaseAddress; rewrite Hbase; split.
  - intro Hn; destruct (Hnone Hn) as [Hs Hlim]; unfold low_4gb_limit in Hlim.
    split; [lia|]; exists size; split; [|lia].
    unfold GetLoadedSize, GetLoadedAddressRange; rewrite Hph, Hr; reflexivity.
  - exact Hsome.
Qed.


(* ======================================================================== *)
(** * Counterexamples *)

(** C7: on the sample image, [Load] with [executable = false] maps the
    read+execute segment read-only: the mapping carries no write
    permission, so it is not the write-and-read protection of the example. *)
Lemma Load_sample_not_read_write :
  match sample_load no_refusal false false None (fun p => p) with
  | Some (inr ef', _, _) =>
      match segments_ ef' with
      | [_; seg] => mm_prot seg <> Z.lor PROT_READ PROT_WRITE /\
                    Z.land (mm_prot seg) PROT_WRITE = 0
      | _ => False
      end
  | _ => False
  end.
Proof.
  vm_compute; split; [intro H; discriminate H | reflexivity].
Qed.

(** C9: with a caller-provided reservation at 4GB, a [Load] asking for
    low-4GB placement succeeds at base address 2^32. *)
Lemma Load_low_4gb_reservation_above_4gb :
  match sample_load no_refusal false true (Some high_reservation) with_high_reservation with
  | Some (inr ef', _, _) => GetBaseAddress ef' = 2 ^ 32
  | _ => False
  end.
Proof.
  vm_compute; reflexivity.
Qed.


(* ======================================================================== *)
(** * Witnesses *)

Lemma FindDynamicSymbolAddress_refines_linear_scan_witness :
  FindDynamicSymbolAddress (sample_loader sample_views) (bytes_of_string "oatdata") =
    linear_scan_dynsym (sample_loader sample_views) (bytes_of_string "oatdata") /\
  FindDynamicSymbolAddress (sample_loader sample_views) (bytes_of_string "oatdata") = Some 0x70001000.
Proof.
  split.
  - apply (proj1 (FindDynamicSymbolAddress_refines_linear_scan
                    (sample_loader sample_views) sample_views (bytes_of_string "oatdata")
                    ltac:(reflexivity) ltac:(vm_compute; reflexivity))).
  - vm_compute; reflexivity.
Defined.

Lemma elf_hash_standard_witness :
  0 <= elf_hash (bytes_of_string "printf") mod 3 < 3 /\
  elf_hash (bytes_of_string "printf") = 0x077905a6.
Proof.
  split.
  - apply (proj2 (proj2 (proj2 (elf_hash_standard (bytes_of_string "printf") 0 3 ltac:(lia))))).
  - vm_compute; reflexivity.
Defined.

Lemma absent_name_walk_bounded_witness :
  FindDynamicSymbolAddress (sample_loader cyclic_views) (bytes_of_string "missing") = None /\
  (chain_links (snd (find_dynamic_symbol_walk cyclic_views (bytes_of_string "missing")))
     <= nchain_bound cyclic_views)%nat.
Proof.
  destruct (absent_name_walk_bounded (sample_loader cyclic_views) (bytes_of_string "missing")
              ltac:(vm_compute; reflexivity)) as [H1 H2].
  split; [exact H1 | exact (proj1 (H2 cyclic_views ltac:(reflexivity)))].
Defined.

Lemma resolver_reads_in_bounds_witness :
  Forall (access_in_bounds 1 3) (snd (find_dynamic_symbol_walk cyclic_views (bytes_of_string "b"))).
Proof.
  exact (proj1 (resolver_reads_in_bounds cyclic_views (bytes_of_string "b") 1 3
                  ltac:(reflexivity) ltac:(reflexivity))).
Defined.

Lemma Open_rejects_layout_mismatch_witness :
  exists msg, Open ElfTypes64 no_refusal bad_magic_file false empty_proc =
              (inl (FormatError msg), empty_proc) /\ msg <> EmptyString.
Proof.
  exact (Open_rejects_layout_mismatch ElfTypes64 no_refusal bad_magic_file false empty_proc
           ltac:(vm_compute; reflexivity)).
Defined.

Lemma Begin_End_Size_consistent_witness :
  Size sample_opened = End sample_opened - Begin sample_opened /\
  Begin sample_opened <= End sample_opened.
Proof.
  destruct (Begin_End_Size_consistent ElfTypes64 no_refusal sample_file false empty_proc
              sample_proc_after_open sample_opened ltac:(vm_compute; reflexivity))
    as [H1 [H2 _]].
  split; [exact H1 | exact H2].
Defined.

Lemma loaded_address_range_spec_witness :
  filter is_load sample_phs <> [] /\
  exists lo hi a,
    GetLoadedAddressRange ElfTypes64 sample_opened =
      inr (RoundDown lo a, RoundUp hi a - RoundDown lo a) /\
    GetLoadedSize ElfTypes64 sample_opened = inr (RoundUp hi a - RoundDown lo a).
Proof.
  assert (Hne : filter is_load sample_phs <> []) by (vm_compute; discriminate).
  split; [exact Hne|].
  destruct (proj2 (loaded_address_range_spec ElfTypes64 sample_opened sample_phs
                     ltac:(vm_compute; reflexivity)) Hne)
    as [lo [hi [a [H1 [H2 _]]]]].
  exists lo, hi, a; split; [exact H1 | exact H2].
Defined.

Lemma Load_all_or_nothing_witness :
  two_seg_phs = [two_seg_ph1; two_seg_ph2] /\
  refuse_second_page (segment_map two_seg_base false two_seg_ph1) = false /\
  refuse_second_page (segment_map two_seg_base false two_seg_ph2) = true /\
  exists res' p',
    Load refuse_second_page ElfTypes64 two_seg_opened false false None two_seg_proc =
      (inl (AllocationError "Failed to map ELF file segment" (Some two_seg_ph2)), res', p') /\
    (forall x, In x (live p') -> In (fst x) (map fst (live two_seg_proc)) \/ res' = Some x).
Proof.
  split; [vm_compute; reflexivity|].
  split; [vm_compute; reflexivity|].
  split; [vm_compute; reflexivity|].
  apply (proj1 (proj2 (Load_all_or_nothing refuse_second_page ElfTypes64 two_seg_opened false false
                         None two_seg_proc))
           two_seg_phs [two_seg_ph1] two_seg_ph2 [] two_seg_base).
  - vm_compute; reflexivity.
  - vm_compute; reflexivity.
  - vm_compute; reflexivity.
  - intros q Hq; vm_compute in Hq; destruct Hq as [Hq|[]]; subst q;
      split; vm_compute; reflexivity.
  - vm_compute; reflexivity.
  - vm_compute; reflexivity.
  - vm_compute; reflexivity.
Defined.

Lemma Load_low_4gb_base_witness :
  match Load no_refusal ElfTypes64 sample_opened false true None sample_proc_after_open with
  | (inr ef', _, _) => GetBaseAddress ef' < 2 ^ 32
  | _ => False
  end.
Proof.
  destruct (Load no_refusal ElfTypes64 sample_opened false true None sample_proc_after_open)
    as [[[e|ef'] res'] p'] eqn:HL.
  - vm_compute in HL; discriminate HL.
  - exact (proj1 (proj1 (Load_low_4gb_base no_refusal ElfTypes64 sample_opened ef' false None res'
                           sample_proc_after_open p' HL) eq_refl)).
Defined.


(* ======================================================================== *)
(** * Further properties: hash and resolver *)

Lemma testbit_high_lt (x k : Z) :
  0 <= x -> 0 <= k -> (forall n, k <= n -> Z.testbit x n = false) -> x < 2 ^ k.
Proof.
  intros Hx Hk H.
  assert (E : Z.land x (Z.ones k) = x).
  { apply Z.bits_inj'; intros n Hn.
    rewrite Z.land_spec, Z.testbit_ones_nonneg by lia.
    destruct (Z.ltb_spec n k); [apply andb_true_r | rewrite H by lia; reflexivity]. }
  rewrite Z.land_ones in E by lia; rewrite <- E.
  apply Z.mod_pos_bound, Z.pow_pos_nonneg; lia.
Qed.

Lemma top_nibble_mask_bits (n : Z) :
  0 <= n -> Z.testbit 0xf0000000 n = (28 <=? n) && (n <? 32).
Proof.
  intro Hn; change 0xf0000000 with (Z.shiftl (Z.ones 4) 28).
  rewrite Z.shiftl_spec by lia.
  destruct (Z.leb_spec 28 n).
  - rewrite Z.testbit_ones_nonneg by lia.
    destruct (Z.ltb_spec (n - 28) 4), (Z.ltb_spec n 32); simpl; lia.
  - rewrite Z.testbit_neg_r by lia; reflexivity.
Qed.

Lemma elf_hash_step_bound (h c : Z) : 0 <= elf_hash_step h c < 2 ^ 28.
Proof.
  unfold elf_hash_step.
  set (h1 := (Z.shiftl h 4 + c) mod 2 ^ 32).
  assert (Hh1 : 0 <= h1 < 2 ^ 32) by (apply Z.mod_pos_bound; lia).
  assert (Hb1 : forall n, 32 <= n -> Z.testbit h1 n = false)
    by (intros n Hn; apply Z.mod_pow2_bits_high; lia).
  set (g := Z.land h1 0xf0000000).
  assert (Hg : forall n, 0 <= n -> Z.testbit g n = Z.testbit h1 n && ((28 <=? n) && (n <? 32)))
    by (intros n Hn; unfold g; rewrite Z.land_spec, top_nibble_mask_bits by exact Hn; reflexivity).
  assert (Hg0 : 0 <= g) by (apply Z.land_nonneg; lia).
  destruct (Z.eqb_spec g 0) as [E|E].
  - split; [lia|]; apply testbit_high_lt; [lia | lia |]; intros n Hn.
    destruct (Z.ltb_spec n 32).
    + assert (Hgn : Z.testbit g n = false) by (rewrite E; apply Z.bits_0).
      rewrite Hg in Hgn by lia.
      rewrite (proj2 (Z.leb_le 28 n)), (proj2 (Z.ltb_lt n 32)) in Hgn by lia.
      rewrite andb_true_r in Hgn; exact Hgn.
    + apply Hb1; lia.
  - assert (Hr0 : 0 <= Z.land (Z.lxor h1 (Z.shiftr g 24)) (Z.lnot g)).
    { apply Z.land_nonneg; left; apply Z.lxor_nonneg.
      split; intros _; [apply Z.shiftr_nonneg | ]; lia. }
    split; [exact Hr0|]; apply testbit_high_lt; [exact Hr0 | lia |]; intros n Hn.
    rewrite Z.land_spec, Z.lxor_spec, Z.lnot_spec, Z.shiftr_spec by lia.
    rewrite (Hg (n + 24)) by lia; rewrite (Hb1 (n + 24)) by lia.
    rewrite (Hg n) by lia.
    destruct (Z.ltb_spec n 32).
    + rewrite (proj2 (Z.leb_le 28 n)) by lia; simpl.
      destruct (Z.testbit h1 n); reflexivity.
    + rewrite (Hb1 n) by lia; reflexivity.
Qed.

Lemma elf_hash_from_bound (h : Z) (name : list Z) :
  0 <= h < 2 ^ 28 -> 0 <= elf_hash_from h name < 2 ^ 28.
Proof.
  revert h; induction name as [|c rest IH]; intros h Hh; simpl; [exact Hh|].
  apply IH, elf_hash_step_bound.
Qed.

(** elf_hash always clears the top nibble of its 32-bit state: for every
    name (any byte values) the hash is in [0, 2^28). *)
Theorem elf_hash_fits_28_bits (name : list Z) : 0 <= elf_hash name < 2 ^ 28.
Proof. apply elf_hash_from_bound; lia. Qed.

Lemma chain_walk_found_pos (V : DynViews) (name : list Z) (nb nc : Z) (F : nat) (c i : Z)
    (s : Elf_Sym) :
  fst (chain_walk V name nb nc F c) = Found i s -> 0 < i < nc.
Proof.
  revert c; induction F as [|F IH]; intro c; simpl; [discriminate|].
  destruct (c =? 0); [discriminate|].
  destruct ((0 <? c) && (c <? nc)) eqn:Hc; simpl; [|discriminate].
  apply andb_true_iff in Hc; destruct Hc as [Hc1 Hc2]; apply Z.ltb_lt in Hc1, Hc2.
  destruct (GetSymbol V c) as [s'|]; [|discriminate].
  destruct (sym_name_is V name s').
  - simpl; intro H; inversion H; subst; lia.
  - destruct (GetHashChain V nb nc c) as [[c'|] tr]; [|discriminate].
    destruct (chain_walk V name nb nc F c') as [r tr'] eqn:Ew.
    simpl; intro H; apply (IH c'); rewrite Ew; exact H.
Qed.

Lemma find_walk_found (V : DynViews) (name : list Z) (i : Z) (s : Elf_Sym) :
  fst (find_dynamic_symbol_walk V name) = Found i s ->
  exists nb nc F c, fst (chain_walk V name nb nc F c) = Found i s.
Proof.
  unfold find_dynamic_symbol_walk.
  destruct (GetHashBucketNum V) as [nb|]; [|discriminate].
  destruct (GetHashChainNum V) as [nc|]; [|discriminate].
  destruct (nb <=? 0); [discriminate|].
  destruct (GetHashBucket V nb (elf_hash name mod nb)) as [[c|] tr]; [|discriminate].
  destruct (chain_walk V name nb nc (Z.to_nat nc) c) as [r tr'] eqn:Ew; simpl.
  intro H; exists nb, nc, (Z.to_nat nc), c; rewrite Ew; exact H.
Qed.

(** FindDynamicSymbolAddress is sound on every table, corrupted ones
    included: an address it returns is [base_address_] plus the value of a
    non-null entry of the dynamic symbol table whose string-table name is
    exactly the requested name. *)
Theorem FindDynamicSymbolAddress_sound (ef : ElfFileImpl) (name : list Z) (a : Z)
    (H : FindDynamicSymbolAddress ef name = Some a) :
  exists V i s, dyn_views_ ef = Some V /\
    0 < i < Z.of_nat (List.length (dynsym V)) /\
    nth_error (dynsym V) (Z.to_nat i) = Some s /\
    GetString V (st_name s) = Some name /\
    a = GetBaseAddress ef + st_value s.
Proof.
  unfold FindDynamicSymbolAddress in H.
  destruct (dyn_views_ ef) as [V|]; [|discriminate].
  unfold FindDynamicSymbol in H.
  destruct (fst (find_dynamic_symbol_walk V name)) as [i s| | |] eqn:Ew; try discriminate.
  injection H as Ha.
  destruct (find_walk_found V name i s Ew) as [nb [nc [F [c Hc]]]].
  destruct (chain_walk_found_sound V name nb nc F c i s Hc) as [Hs Hn].
  pose proof (chain_walk_found_pos V name nb nc F c i s Hc) as Hpos.
  unfold GetSymbol in Hs.
  destruct ((0 <=? i) && (i <? Z.of_nat (List.length (dynsym V)))) eqn:Hb; [|discriminate].
  apply andb_true_iff in Hb; destruct Hb as [_ Hb]; apply Z.ltb_lt in Hb.
  exists V, i, s; split; [reflexivity|]; split; [lia|]; split; [exact Hs|].
  split; [apply sym_name_is_true, Hn|].
  unfold GetBaseAddress; lia.
Qed.

(* ======================================================================== *)
(** * Further properties: Load *)

Lemma map_segments_aligned (mmap_refuses : MemMap -> bool) (base : Z) (executable : bool)
    (phs : list Elf_Phdr) :
  forall p built out p',
  map_segments mmap_refuses phs base executable p built = (inr out, p') ->
  forall ph, In ph (filter is_load phs) ->
  p_offset ph mod seg_align ph = p_vaddr ph mod seg_align ph.
Proof.
  induction phs as [|a phs IH]; intros p built out p'; simpl; [intros _ ph []|].
  destruct (is_load a) eqn:Hl; simpl.
  - destruct (p_offset a mod seg_align a =? p_vaddr a mod seg_align a) eqn:Ha; simpl;
      [|discriminate].
    destruct (mmap_refuses (segment_map base executable a)); [discriminate|].
    destruct (add_map p (segment_map base executable a)) as [id p0].
    intros H ph [<-|Hin]; [apply Z.eqb_eq, Ha | exact (IH _ _ _ _ H ph Hin)].
  - intros H ph Hin; exact (IH _ _ _ _ H ph Hin).
Qed.

(** [Load] never succeeds on an image with a loadable segment whose file
    offset and virtual address disagree modulo its alignment. *)
Theorem Load_rejects_misaligned (mmap_refuses : MemMap -> bool) (ET : ElfTypes)
    (ef : ElfFileImpl) (executable low_4gb : bool) (res : option (nat * MemMap)) (p : Proc)
    (phs : list Elf_Phdr) (ph : Elf_Phdr)
    (Hph : program_headers ET ef = Some phs) (Hin : In ph (filter is_load phs))
    (Hmis : p_offset ph mod seg_align ph <> p_vaddr ph mod seg_align ph) :
  exists e, fst (fst (Load mmap_refuses ET ef executable low_4gb res p)) = inl e.
Proof.
  unfold Load; rewrite Hph.
  destruct (loaded_address_range phs) as [e|[lo size]]; [eexists; reflexivity|].
  destruct (reserve_span mmap_refuses p res size low_4gb) as [e|[[[tid rmap] r1] p1]];
    [eexists; reflexivity|].
  destruct (map_segments mmap_refuses phs (mm_begin rmap) executable p1 []) as [[[e built]|built] p2]
    eqn:Hms; [eexists; reflexivity|].
  exfalso; apply Hmis; exact (map_segments_aligned _ _ _ _ _ _ _ _ Hms ph Hin).
Qed.

Lemma first_load_align_headers (ET : ElfTypes) (ef : ElfFileImpl) (idx : list Z) :
  forall phs, all_some (map (GetProgramHeader ET ef) idx) = Some phs ->
  first_load_align ET ef idx = match find is_load phs with Some ph => p_align ph | None => 0 end.
Proof.
  induction idx as [|i idx IH]; simpl; intros phs H.
  - injection H as <-; reflexivity.
  - destruct (GetProgramHeader ET ef i) as [ph|]; [|discriminate].
    destruct (all_some (map (GetProgramHeader ET ef) idx)) as [r|] eqn:E; [|discriminate].
    injection H as <-; simpl.
    destruct (is_load ph); [reflexivity | apply IH; reflexivity].
Qed.

(** [GetElfSegmentAlignmentFromFile] and [GetLoadedSize] agree: without a
    loadable entry the first is 0 and the second fails; when the first is
    positive and every loadable alignment is a power of two, [GetLoadedSize]
    succeeds with a multiple of it. *)
Theorem GetElfSegmentAlignmentFromFile_divides_loaded_size (ET : ElfTypes) (ef : ElfFileImpl)
    (phs : list Elf_Phdr) (Hph : program_headers ET ef = Some phs)
    (Hpow : forall ph, In ph (filter is_load phs) -> exists k, 0 <= k /\ seg_align ph = 2 ^ k) :
  (filter is_load phs = [] ->
     GetElfSegmentAlignmentFromFile ET ef = 0 /\
     exists msg, GetLoadedSize ET ef = inl (FormatError msg)) /\
  (0 < GetElfSegmentAlignmentFromFile ET ef ->
     exists size, GetLoadedSize ET ef = inr size /\
                  size mod GetElfSegmentAlignmentFromFile ET ef = 0).
Proof.
  assert (Ha : GetElfSegmentAlignmentFromFile ET ef =
               match find is_load phs with Some ph => p_align ph | None => 0 end)
    by (apply first_load_align_headers, Hph).
  split.
  - intro Hno; split.
    + rewrite Ha; destruct (find is_load phs) as [ph|] eqn:Hf; [|reflexivity].
      apply find_some in Hf; destruct Hf as [Hin Hl].
      assert (Hin' : In ph (filter is_load phs)) by (apply filter_In; auto).
      rewrite Hno in Hin'; contradiction.
    + unfold GetLoadedSize, GetLoadedAddressRange, loaded_address_range; rewrite Hph.
      rewrite (range_fold_no_load phs None Hno); eexists; reflexivity.
  - rewrite Ha; destruct (find is_load phs) as [ph|] eqn:Hf; [|lia].
    intro Hpos.
    apply find_some in Hf; destruct Hf as [Hin Hl].
    assert (Hin' : In ph (filter is_load phs)) by (apply filter_In; auto).
    assert (Hne : filter is_load phs <> []) by (intro E; rewrite E in Hin'; contradiction).
    destruct (range_fold_loads phs Hne)
      as [lo [hi [A [Hfold [Hall [_ [_ [phA [HinA HA]]]]]]]]].
    exists (RoundUp hi A - RoundDown lo A); split.
    { unfold GetLoadedSize, GetLoadedAddressRange, loaded_address_range.
      rewrite Hph, Hfold; reflexivity. }
    assert (Hsa : seg_align ph = p_align ph)
      by (unfold seg_align; destruct (Z.leb_spec (p_align ph) 0); lia).
    destruct (Hpow ph Hin') as [k [Hk Ek]].
    destruct (Hpow phA HinA) as [m [Hm Em]].
    destruct (Hall ph Hin') as [_ [_ Hle]].
    assert (HA1 : 1 <= A) by (rewrite <- HA; apply seg_align_pos).
    assert (Hkm : k <= m).
    { apply (Z.pow_le_mono_r_iff 2 k m); [lia | exact Hm |].
      rewrite <- Ek, <- Em, HA; exact Hle. }
    assert (Hdiv : (p_align ph | RoundUp hi A - RoundDown lo A)).
    { apply Z.divide_trans with A.
      - rewrite <- Hsa, Ek, <- HA, Em.
        exists (2 ^ (m - k)); rewrite <- Z.pow_add_r by lia; f_equal; lia.
      - apply Z.mod_divide; [lia | apply span_multiple; lia]. }
    apply Z.mod_divide; [lia | exact Hdiv].
Qed.


(* ======================================================================== *)
(** * Further properties: Open *)

Lemma Open_success_fields (ET : ElfTypes) (mmap_refuses : MemMap -> bool) (file : File)
    (low_4gb : bool) (p p' : Proc) (ef : ElfFileImpl) :
  Open ET mmap_refuses file low_4gb p = (inr ef, p') ->
  exists phoff phentsize phnum a,
    let size := Z.max (Z.of_nat (ehdr_size ET)) (phoff + phentsize * phnum) in
    read_le (file_bytes file) (e_phoff_at ET) (addr_bytes ET) = Some phoff /\
    read_le (file_bytes file) (e_phentsize_at ET) 2 = Some phentsize /\
    read_le (file_bytes file) (e_phnum_at ET) 2 = Some phnum /\
    e_phoff ef = phoff /\ e_phentsize ef = phentsize /\ e_phnum ef = phnum /\
    Z.of_nat (ehdr_size ET) <= GetLength file /\
    phoff + phentsize * phnum <= GetLength file /\
    place_region p size low_4gb = Some a /\
    map_ ef = {| mm_begin := a; mm_size := size; mm_prot := PROT_READ;
                 mm_file_offset := Some 0; mm_file_size := size |} /\
    map_bytes_ ef = firstn (Z.to_nat size) (file_bytes file) /\
    file_path_ ef = file_path file /\
    p' = snd (add_map p (map_ ef)).
Proof.
  unfold Open.
  destruct (GetLength file <? Z.of_nat (ehdr_size ET)) eqn:H1; [discriminate|].
  destruct (negb (magic_ok (file_bytes file))); [discriminate|].
  destruct (negb (class_ok ET (file_bytes file))); [discriminate|].
  destruct (negb (data_ok (file_bytes file))); [discriminate|].
  destruct (read_le (file_bytes file) (e_phoff_at ET) (addr_bytes ET)) as [phoff|] eqn:R1;
    [|discriminate].
  destruct (read_le (file_bytes file) (e_phentsize_at ET) 2) as [phentsize|] eqn:R2; [|discriminate].
  destruct (read_le (file_bytes file) (e_phnum_at ET) 2) as [phnum|] eqn:R3; [|discriminate].
  destruct (GetLength file <? phoff + phentsize * phnum) eqn:H2; [discriminate|].
  destruct (place_region p (Z.max (Z.of_nat (ehdr_size ET)) (phoff + phentsize * phnum)) low_4gb)
    as [a|] eqn:Hpl; [|discriminate].
  match goal with |- context [if mmap_refuses ?m then _ else _] => destruct (mmap_refuses m) end;
    [discriminate|].
  simpl; intro H; injection H as <- <-.
  apply Z.ltb_ge in H1, H2.
  exists phoff, phentsize, phnum, a; simpl.
  repeat (split; [reflexivity || assumption|]); reflexivity.
Qed.

Lemma read_le_some (bs : list Z) (n : nat) :
  forall off, (off + n <= List.length bs)%nat -> exists v, read_le bs off n = Some v.
Proof.
  induction n as [|n IH]; intros off Hl; simpl; [eauto|].
  destruct (nth_error bs off) as [b|] eqn:E; [|apply nth_error_None in E; lia].
  destruct (IH (S off) ltac:(lia)) as [v Hv]; rewrite Hv; eauto.
Qed.

Lemma read_le_nonneg (bs : list Z) (n : nat) :
  Forall (fun b => 0 <= b) bs -> forall off v, read_le bs off n = Some v -> 0 <= v.
Proof.
  intro Hb; induction n as [|n IH]; intros off v; cbn [read_le]; [intro H; injection H; lia|].
  destruct (nth_error bs off) as [b|] eqn:E; [|discriminate].
  destruct (read_le bs (S off) n) as [r|] eqn:E2; [|discriminate].
  intro H; assert (Hv : v = b + 256 * r) by congruence; subst v.
  pose proof (IH _ _ E2).
  apply nth_error_In in E; rewrite Forall_forall in Hb; specialize (Hb b E); lia.
Qed.

Lemma parse_phdr_some (ET : ElfTypes) (bs : list Z) (off : nat)
    (HET : ET = ElfTypes32 \/ ET = ElfTypes64)
    (Hl : (off + phdr_size ET <= List.length bs)%nat) :
  exists ph, parse_phdr ET bs off = Some ph.
Proof.
  unfold parse_phdr.
  destruct HET as [-> | ->];
    cbn [p_type_at p_flags_at p_offset_at p_vaddr_at p_filesz_at p_memsz_at p_align_at
         addr_bytes phdr_size ElfTypes32 ElfTypes64] in *;
    repeat match goal with
    | |- context [read_le bs ?o ?n] =>
        let v := fresh "v" in let E := fresh "E" in
        destruct (read_le_some bs n o ltac:(lia)) as [v E]; rewrite E
    end; eauto.
Qed.

Lemma all_some_map_some {A B : Type} (f : A -> option B) (l : list A) :
  (forall x, In x l -> f x <> None) ->
  exists ys, all_some (map f l) = Some ys /\ List.length ys = List.length l.
Proof.
  induction l as [|x l IH]; simpl; intro H; [exists []; auto|].
  destruct (f x) as [y|] eqn:E; [|exfalso; apply (H x); auto].
  destruct IH as [ys [E1 E2]]; [intros z Hz; apply H; auto|].
  rewrite E1; exists (y :: ys); simpl; auto.
Qed.

(** After a successful [Open] of a file of bytes whose header declares
    program-header entries at least [sizeof(Elf_Phdr)] apart, every entry
    [i < e_phnum] is readable through [GetProgramHeader]: the whole table
    lies in the header mapping. *)
Theorem Open_program_headers_readable (ET : ElfTypes) (mmap_refuses : MemMap -> bool)
    (file : File) (low_4gb : bool) (p p' : Proc) (ef : ElfFileImpl)
    (HET : ET = ElfTypes32 \/ ET = ElfTypes64)
    (Hbytes : forallb (fun b => 0 <=? b) (file_bytes file) = true)
    (Hopen : Open ET mmap_refuses file low_4gb p = (inr ef, p'))
    (Hent : Z.of_nat (phdr_size ET) <= e_phentsize ef) :
  exists phs, program_headers ET ef = Some phs /\ List.length phs = Z.to_nat (e_phnum ef).
Proof.
  assert (Hb : Forall (fun b => 0 <= b) (file_bytes file)).
  { apply Forall_forall; intros b Hin; rewrite forallb_forall in Hbytes.
    apply Z.leb_le, Hbytes, Hin. }
  destruct (Open_success_fields ET mmap_refuses file low_4gb p p' ef Hopen)
    as [phoff [phentsize [phnum [a [R1 [_ [_ [Eo [Ee [En [Hl1 [Hl2 [_ [Hm [Hbs _]]]]]]]]]]]]]]].
  pose proof (read_le_nonneg _ _ Hb _ _ R1) as Hoff.
  unfold program_headers.
  destruct (all_some_map_some (GetProgramHeader ET ef) (zrange (e_phnum ef))) as [ys [E1 E2]].
  - intros i Hi; apply in_zrange in Hi.
    unfold GetProgramHeader, ValidPointer, Size, MemMap_Size; rewrite Hm; cbn [mm_size].
    rewrite Eo, Ee, En in *.
    unfold GetLength in Hl1, Hl2.
    assert (Hr : (phoff + i * phentsize) + Z.of_nat (phdr_size ET) <= phoff + phentsize * phnum)
      by nia.
    replace ((0 <=? i) && (i <? phnum) &&
             ((0 <=? phoff + i * phentsize) &&
              (phoff + i * phentsize + Z.of_nat (phdr_size ET) <=?
               Z.max (Z.of_nat (ehdr_size ET)) (phoff + phentsize * phnum)))) with true.
    2: { symmetry; rewrite !andb_true_iff, !Z.leb_le, Z.ltb_lt; split; [split|split]; nia. }
    rewrite Hbs.
    destruct (parse_phdr_some ET
                (firstn (Z.to_nat (Z.max (Z.of_nat (ehdr_size ET)) (phoff + phentsize * phnum)))
                        (file_bytes file))
                (Z.to_nat (phoff + i * phentsize)) HET) as [ph Hph].
    + assert (Hoff0 : 0 <= phoff + i * phentsize) by nia.
      rewrite length_firstn; generalize dependent (i * phentsize); generalize dependent (phentsize * phnum); intros; lia.
    + rewrite Hph; discriminate.
  - exists ys; split; [exact E1|].
    rewrite E2; unfold zrange; rewrite length_map, length_seq; reflexivity.
Qed.


(* ======================================================================== *)
(** * Witnesses of the further properties *)

Lemma FindDynamicSymbolAddress_sound_witness :
  exists V i s, dyn_views_ sample_opened_views = Some V /\
    0 < i < Z.of_nat (List.length (dynsym V)) /\
    nth_error (dynsym V) (Z.to_nat i) = Some s /\
    GetString V (st_name s) = Some (bytes_of_string "oatdata") /\
    0x1000 = GetBaseAddress sample_opened_views + st_value s.
Proof.
  exact (FindDynamicSymbolAddress_sound sample_opened_views (bytes_of_string "oatdata") 0x1000
           ltac:(vm_compute; reflexivity)).
Defined.

Lemma Load_rejects_misaligned_witness :
  exists e, fst (fst (Load no_refusal ElfTypes64 misaligned_opened false false None
                           empty_proc)) = inl e.
Proof.
  apply (Load_rejects_misaligned no_refusal ElfTypes64 misaligned_opened false false None
           empty_proc misaligned_phs
           {| p_type := 1; p_flags := 5; p_offset := 16; p_vaddr := 0;
              p_filesz := 4096; p_memsz := 4096; p_align := 4096 |}).
  - vm_compute; reflexivity.
  - vm_compute; left; reflexivity.
  - vm_compute; discriminate.
Defined.

Lemma GetElfSegmentAlignmentFromFile_divides_loaded_size_witness :
  exists size, GetLoadedSize ElfTypes64 sample_opened = inr size /\
               size mod GetElfSegmentAlignmentFromFile ElfTypes64 sample_opened = 0.
Proof.
  apply (proj2 (GetElfSegmentAlignmentFromFile_divides_loaded_size ElfTypes64 sample_opened
                  sample_phs ltac:(vm_compute; reflexivity)
                  ltac:(intros ph Hin; vm_compute in Hin; destruct Hin as [<-|[]];
                        exists 12; split; [lia | reflexivity]))).
  vm_compute; reflexivity.
Defined.

Lemma Open_program_headers_readable_witness :
  exists phs, program_headers ElfTypes64 sample_opened = Some phs /\
              List.length phs = Z.to_nat (e_phnum sample_opened).
Proof.
  exact (Open_program_headers_readable ElfTypes64 no_refusal sample_file false empty_proc
           sample_proc_after_open sample_opened (or_intror eq_refl)
           ltac:(vm_compute; reflexivity) ltac:(vm_compute; reflexivity)
           ltac:(vm_compute; discriminate)).
Defined.
